(** * Playback scheduling engine of [playlist_player.py]

    A shallow embedding of the scheduling core of [RandomPlayer] and of the
    drag-reorder handler of [Menu]: the identity keyer, the fairness queue,
    the catalog reconciliation of [load_playlists], the autoplay timer
    bookkeeping and [play_track].

    Modelling conventions.
    - Python [float] seconds are exact rationals ([Q]); rounding is not
      modelled.
    - Python [int] play counts are [Z]; the ledger [play_counts] is a
      [gmap string Z].
    - The outside world (wall clock, random generator, browser and window
      automation, catalog providers) is an explicit environment [Env] read
      by each operation; what an operation does to the outside world is
      appended to the [trace] field of the player.
    - [threading.Timer] objects live in a heap ([timers]); the field
      [_autoplay_timer] holds a handle into it, so that cancelling a timer
      that is later replaced stays observable. *)

From Stdlib Require Import QArith Lqa.
From stdpp Require Import gmap strings list fin_maps.

Open Scope string_scope.

(** ** Data model *)

Record Track := mkTrack {
  title : string;
  artist : string;
  platform : string;
  url : string;
  uri : option string;
  duration : option Q;
  added_by_id : option string;
  added_by_name : option string;
  added_at : option string
}.

(** Python truthiness of the values the code tests with [if x:]. *)
Definition truthy_str (s : string) : bool :=
  match s with EmptyString => false | _ => true end.

Definition truthy_opt_str (o : option string) : bool :=
  match o with Some s => truthy_str s | None => false end.

Definition truthy_float (q : Q) : bool := negb (Qeq_bool q 0).

Definition truthy_opt_float (o : option Q) : bool :=
  match o with Some q => truthy_float q | None => false end.

(** [RandomPlayer._track_key] *)
Definition _track_key (track : Track) : string :=
  if truthy_opt_str (uri track) then default "" (uri track)
  else if truthy_str (url track) then url track
  else platform track ++ ":" ++ title track ++ " - " ++ artist track.

(** A [threading.Timer] object: the interval it was created with and
    whether [cancel()] was called on it. *)
Record Timer := mkTimer {
  interval : Q;
  cancelled : bool
}.

(** What the player does to the outside world. Only the effects the
    properties below speak about are recorded; sleeps, debug prints and
    the fullscreen keystrokes of [play_track] are not. *)
Inductive event :=
  | EvOpen (u : string)          (* webbrowser.open(u) *)
  | EvCloseTab (t : string)      (* _close_browser_tab(t) *)
  | EvPress (key : string)       (* pyautogui.press(key) *)
  | EvNowPlaying (t : Track)     (* the "Now Playing" banner *)
  | EvNoTracks.                  (* print("No tracks in queue!") *)

(** The fields of [RandomPlayer] that the scheduling core reads or
    writes, under their source names. *)
Record RandomPlayer := mkPlayer {
  youtube_tracks : list Track;
  spotify_tracks : list Track;
  all_tracks : list Track;
  played_tracks : list Track;
  current_platform : option string;
  _youtube_playing : bool;
  _spotify_playing : bool;
  _current_track_title : option string;
  play_counts : gmap string Z;
  timers : list Timer;
  _autoplay_timer : option nat;
  _autoplay_start_time : option Q;
  _autoplay_duration : option Q;
  _autoplay_remaining : option Q;
  _autoplay_paused : bool;
  _queue : list Track;
  trace : list event
}.

(** Field updates ([self.f = v]). *)
Definition set_youtube_tracks (v : list Track) (st : RandomPlayer)
    : RandomPlayer :=
  mkPlayer
    v (spotify_tracks st) (all_tracks st) (played_tracks st)
    (current_platform st) (_youtube_playing st) (_spotify_playing st)
    (_current_track_title st) (play_counts st) (timers st)
    (_autoplay_timer st) (_autoplay_start_time st) (_autoplay_duration st)
    (_autoplay_remaining st) (_autoplay_paused st) (_queue st) (trace st).

Definition set_spotify_tracks (v : list Track) (st : RandomPlayer)
    : RandomPlayer :=
  mkPlayer
    (youtube_tracks st) v (all_tracks st) (played_tracks st)
    (current_platform st) (_youtube_playing st) (_spotify_playing st)
    (_current_track_title st) (play_counts st) (timers st)
    (_autoplay_timer st) (_autoplay_start_time st) (_autoplay_duration st)
    (_autoplay_remaining st) (_autoplay_paused st) (_queue st) (trace st).

Definition set_all_tracks (v : list Track) (st : RandomPlayer)
    : RandomPlayer :=
  mkPlayer
    (youtube_tracks st) (spotify_tracks st) v (played_tracks st)
    (current_platform st) (_youtube_playing st) (_spotify_playing st)
    (_current_track_title st) (play_counts st) (timers st)
    (_autoplay_timer st) (_autoplay_start_time st) (_autoplay_duration st)
    (_autoplay_remaining st) (_autoplay_paused st) (_queue st) (trace st).

Definition set_played_tracks (v : list Track) (st : RandomPlayer)
    : RandomPlayer :=
  mkPlayer
    (youtube_tracks st) (spotify_tracks st) (all_tracks st) v
    (current_platform st) (_youtube_playing st) (_spotify_playing st)
    (_current_track_title st) (play_counts st) (timers st)
    (_autoplay_timer st) (_autoplay_start_time st) (_autoplay_duration st)
    (_autoplay_remaining st) (_autoplay_paused st) (_queue st) (trace st).

Definition set_current_platform (v : option string) (st : RandomPlayer)
    : RandomPlayer :=
  mkPlayer
    (youtube_tracks st) (spotify_tracks st) (all_tracks st)
    (played_tracks st) v (_youtube_playing st) (_spotify_playing st)
    (_current_track_title st) (play_counts st) (timers st)
    (_autoplay_timer st) (_autoplay_start_time st) (_autoplay_duration st)
    (_autoplay_remaining st) (_autoplay_paused st) (_queue st) (trace st).

Definition set_youtube_playing (v : bool) (st : RandomPlayer)
    : RandomPlayer :=
  mkPlayer
    (youtube_tracks st) (spotify_tracks st) (all_tracks st)
    (played_tracks st) (current_platform st) v (_spotify_playing st)
    (_current_track_title st) (play_counts st) (timers st)
    (_autoplay_timer st) (_autoplay_start_time st) (_autoplay_duration st)
    (_autoplay_remaining st) (_autoplay_paused st) (_queue st) (trace st).

Definition set_spotify_playing (v : bool) (st : RandomPlayer)
    : RandomPlayer :=
  mkPlayer
    (youtube_tracks st) (spotify_tracks st) (all_tracks st)
    (played_tracks st) (current_platform st) (_youtube_playing st) v
    (_current_track_title st) (play_counts st) (timers st)
    (_autoplay_timer st) (_autoplay_start_time st) (_autoplay_duration st)
    (_autoplay_remaining st) (_autoplay_paused st) (_queue st) (trace st).

Definition set_current_track_title (v : option string) (st : RandomPlayer)
    : RandomPlayer :=
  mkPlayer
    (youtube_tracks st) (spotify_tracks st) (all_tracks st)
    (played_tracks st) (current_platform st) (_youtube_playing st)
    (_spotify_playing st) v (play_counts st) (timers st)
    (_autoplay_timer st) (_autoplay_start_time st) (_autoplay_duration st)
    (_autoplay_remaining st) (_autoplay_paused st) (_queue st) (trace st).

Definition set_play_counts (v : gmap string Z) (st : RandomPlayer)
    : RandomPlayer :=
  mkPlayer
    (youtube_tracks st) (spotify_tracks st) (all_tracks st)
    (played_tracks st) (current_platform st) (_youtube_playing st)
    (_spotify_playing st) (_current_track_title st) v (timers st)
    (_autoplay_timer st) (_autoplay_start_time st) (_autoplay_duration st)
    (_autoplay_remaining st) (_autoplay_paused st) (_queue st) (trace st).

Definition set_timers (v : list Timer) (st : RandomPlayer)
    : RandomPlayer :=
  mkPlayer
    (youtube_tracks st) (spotify_tracks st) (all_tracks st)
    (played_tracks st) (current_platform st) (_youtube_playing st)
    (_spotify_playing st) (_current_track_title st) (play_counts st) v
    (_autoplay_timer st) (_autoplay_start_time st) (_autoplay_duration st)
    (_autoplay_remaining st) (_autoplay_paused st) (_queue st) (trace st).

Definition set_autoplay_timer (v : option nat) (st : RandomPlayer)
    : RandomPlayer :=
  mkPlayer
    (youtube_tracks st) (spotify_tracks st) (all_tracks st)
    (played_tracks st) (current_platform st) (_youtube_playing st)
    (_spotify_playing st) (_current_track_title st) (play_counts st)
    (timers st) v (_autoplay_start_time st) (_autoplay_duration st)
    (_autoplay_remaining st) (_autoplay_paused st) (_queue st) (trace st).

Definition set_autoplay_start_time (v : option Q) (st : RandomPlayer)
    : RandomPlayer :=
  mkPlayer
    (youtube_tracks st) (spotify_tracks st) (all_tracks st)
    (played_tracks st) (current_platform st) (_youtube_playing st)
    (_spotify_playing st) (_current_track_title st) (play_counts st)
    (timers st) (_autoplay_timer st) v (_autoplay_duration st)
    (_autoplay_remaining st) (_autoplay_paused st) (_queue st) (trace st).

Definition set_autoplay_duration (v : option Q) (st : RandomPlayer)
    : RandomPlayer :=
  mkPlayer
    (youtube_tracks st) (spotify_tracks st) (all_tracks st)
    (played_tracks st) (current_platform st) (_youtube_playing st)
    (_spotify_playing st) (_current_track_title st) (play_counts st)
    (timers st) (_autoplay_timer st) (_autoplay_start_time st) v
    (_autoplay_remaining st) (_autoplay_paused st) (_queue st) (trace st).

Definition set_autoplay_remaining (v : option Q) (st : RandomPlayer)
    : RandomPlayer :=
  mkPlayer
    (youtube_tracks st) (spotify_tracks st) (all_tracks st)
    (played_tracks st) (current_platform st) (_youtube_playing st)
    (_spotify_playing st) (_current_track_title st) (play_counts st)
    (timers st) (_autoplay_timer st) (_autoplay_start_time st)
    (_autoplay_duration st) v (_autoplay_paused st) (_queue st) (trace st).

Definition set_autoplay_paused (v : bool) (st : RandomPlayer)
    : RandomPlayer :=
  mkPlayer
    (youtube_tracks st) (spotify_tracks st) (all_tracks st)
    (played_tracks st) (current_platform st) (_youtube_playing st)
    (_spotify_playing st) (_current_track_title st) (play_counts st)
    (timers st) (_autoplay_timer st) (_autoplay_start_time st)
    (_autoplay_duration st) (_autoplay_remaining st) v (_queue st)
    (trace st).

Definition set_queue (v : list Track) (st : RandomPlayer)
    : RandomPlayer :=
  mkPlayer
    (youtube_tracks st) (spotify_tracks st) (all_tracks st)
    (played_tracks st) (current_platform st) (_youtube_playing st)
    (_spotify_playing st) (_current_track_title st) (play_counts st)
    (timers st) (_autoplay_timer st) (_autoplay_start_time st)
    (_autoplay_duration st) (_autoplay_remaining st) (_autoplay_paused st) v
    (trace st).

Definition set_trace (v : list event) (st : RandomPlayer)
    : RandomPlayer :=
  mkPlayer
    (youtube_tracks st) (spotify_tracks st) (all_tracks st)
    (played_tracks st) (current_platform st) (_youtube_playing st)
    (_spotify_playing st) (_current_track_title st) (play_counts st)
    (timers st) (_autoplay_timer st) (_autoplay_start_time st)
    (_autoplay_duration st) (_autoplay_remaining st) (_autoplay_paused st)
    (_queue st) v.

Definition log (ev : event) (st : RandomPlayer) : RandomPlayer :=
  set_trace (trace st ++ [ev]) st.

(** The outside world as one operation sees it. *)
Record Env := mkEnv {
  env_now : Q;              (* what time.time() returns *)
  env_draws : list nat;     (* raw outputs of the random generator *)
  env_reused : bool;        (* _navigate_in_same_tab returned True
                               (an exception in it counts as False) *)
  env_open_raises : bool;   (* webbrowser.open raises *)
  env_focus_raises : bool;  (* _focus_spotify_app raises *)
  env_press_raises : bool   (* pyautogui.press('space') raises *)
}.

(** ** Fairness queue *)

(** [x[i], x[j] = x[j], x[i]] *)
Definition swap {A} (i j : nat) (x : list A) : list A :=
  match x !! i, x !! j with
  | Some xi, Some xj => <[j:=xi]> (<[i:=xj]> x)
  | _, _ => x
  end.

(** [random.shuffle]: for [i] from [len(x) - 1] down to [1], draw
    [j = randbelow(i + 1)] and swap [x[i]] with [x[j]]. The generator is
    the list of its raw outputs, each reduced modulo [i + 1]; an exhausted
    generator yields [0]. *)
Fixpoint shuffle_from {A} (i : nat) (draws : list nat) (x : list A) : list A :=
  match i with
  | O => x
  | S i' => shuffle_from i' (tail draws) (swap i (hd 0%nat draws `mod` S i) x)
  end.

Definition shuffle {A} (draws : list nat) (x : list A) : list A :=
  shuffle_from (length x - 1) draws x.

(** [self.play_counts.get(self._track_key(t), 0)] *)
Definition count_of (counts : gmap string Z) (t : Track) : Z :=
  default 0%Z (counts !! _track_key t).

(** [min(counts) if counts else 0] *)
Definition min_of (counts : list Z) : Z :=
  match counts with
  | [] => 0%Z
  | c :: cs => foldl Z.min c cs
  end.

(** The catalog slice selected by the [platform] argument. *)
Definition slice (platform : option string) (st : RandomPlayer) : list Track :=
  match platform with
  | None => all_tracks st
  | Some p => if String.eqb p "youtube" then youtube_tracks st
              else spotify_tracks st
  end.

Definition set_slice (platform : option string) (v : list Track)
    (st : RandomPlayer) : RandomPlayer :=
  match platform with
  | None => set_all_tracks v st
  | Some p => if String.eqb p "youtube" then set_youtube_tracks v st
              else set_spotify_tracks v st
  end.

(** [[t for t, c in zip(tracks, counts) if c == min_count]] *)
Definition select_min (tracks : list Track) (counts : list Z) (min_count : Z)
    : list Track :=
  (filter (λ tc, tc.2 = min_count) (zip tracks counts)).*1.

(** [RandomPlayer._fill_queue]. When [candidates] is empty the source
    rebinds it to [tracks], the catalog list itself, which
    [random.shuffle] then permutes in place: the slice is updated too. *)
Definition _fill_queue (e : Env) (platform : option string)
    (st : RandomPlayer) : RandomPlayer :=
  let tracks := slice platform st in
  match tracks with
  | [] => st
  | _ :: _ =>
      let counts := map (count_of (play_counts st)) tracks in
      let min_count := min_of counts in
      let candidates := select_min tracks counts min_count in
      match candidates with
      | [] =>
          let shuffled := shuffle (env_draws e) tracks in
          let st := set_slice platform shuffled st in
          set_queue (_queue st ++ shuffled) st
      | _ :: _ =>
          set_queue (_queue st ++ shuffle (env_draws e) candidates) st
      end
  end.

(** ** Autoplay timer *)

Definition Qltb (a b : Q) : bool := negb (Qle_bool b a).

(** Python's [max(a, b)]: the first argument unless the second is larger. *)
Definition py_max (a b : Q) : Q := if Qltb a b then b else a.

(** Python's [a or b] on an optional float. *)
Definition py_or (a : option Q) (b : Q) : Q :=
  match a with
  | Some q => if truthy_float q then q else b
  | None => b
  end.

(** [timer.cancel()] on the timer object behind handle [h]. *)
Definition cancel_timer (h : nat) (st : RandomPlayer) : RandomPlayer :=
  set_timers (alter (λ tm, mkTimer (interval tm) true) h (timers st)) st.

(** [RandomPlayer._start_autoplay_timer]. Every caller passes a float, so
    the [duration is None] half of the guard is not modelled. *)
Definition _start_autoplay_timer (e : Env) (duration : Q)
    (st : RandomPlayer) : RandomPlayer :=
  if Qle_bool duration 0 then st
  else
    let st := match _autoplay_timer st with
              | Some h => cancel_timer h st
              | None => st
              end in
    let st := set_autoplay_start_time (Some (env_now e)) st in
    let st := set_autoplay_duration (Some duration) st in
    let st := set_autoplay_remaining None st in
    let st := set_autoplay_paused false st in
    let h := length (timers st) in
    let st := set_timers (timers st ++ [mkTimer duration false]) st in
    set_autoplay_timer (Some h) st.

(** The timer bookkeeping block of [pause_playback]. *)
Definition pause_bookkeeping (e : Env) (st : RandomPlayer) : RandomPlayer :=
  match _autoplay_timer st, _autoplay_paused st with
  | Some h, false =>
      let remaining :=
        if truthy_opt_float (_autoplay_start_time st)
           && truthy_opt_float (_autoplay_duration st)
        then
          let elapsed :=
            (env_now e - py_or (_autoplay_start_time st) (env_now e))%Q in
          Some (py_or (_autoplay_duration st) 0 - elapsed)%Q
        else None in
      let st := cancel_timer h st in
      let st := set_autoplay_timer None st in
      let st := set_autoplay_remaining (py_max (1#10) <$> remaining) st in
      set_autoplay_paused true st
  | _, _ =>
      match _autoplay_paused st, _autoplay_remaining st with
      | true, Some r =>
          let st := _start_autoplay_timer e r st in
          let st := set_autoplay_remaining None st in
          set_autoplay_paused false st
      | _, _ => st
      end
  end.

(** [RandomPlayer.pause_playback]: focusing the tab and the Spotify app
    does not touch the player; the result is [True] unless the key press
    raises. *)
Definition pause_playback (e : Env) (st : RandomPlayer)
    : RandomPlayer * bool :=
  let st := pause_bookkeeping e st in
  if env_press_raises e then (st, false)
  else (log (EvPress "space") st, true).

(** ** Playback *)

(** The Spotify timer adjustment of [play_track]; [offset] is [5] on a
    reused tab and [4] on a fresh one. *)
Definition spotify_timer_dur (offset d : Q) : Q :=
  let timer_dur := if Qltb offset d then (d - offset)%Q else d in
  if Qltb timer_dur 1 then py_max (1#2) (d * (9#10))%Q else timer_dur.

(** [if track.duration: self._start_autoplay_timer(f(track.duration))] *)
Definition arm_if_known (e : Env) (f : Q → Q) (track : Track)
    (st : RandomPlayer) : RandomPlayer :=
  match duration track with
  | Some d => if truthy_float d then _start_autoplay_timer e (f d) st else st
  | None => st
  end.

(** [self._close_browser_tab(self._current_track_title)] *)
Definition close_current_tab (st : RandomPlayer) : RandomPlayer :=
  log (EvCloseTab (default "" (_current_track_title st))) st.

(** The YouTube branch of [play_track]. When [webbrowser.open] raises, the
    handler opens the page again; that second call is taken to return. *)
Definition play_youtube (e : Env) (track : Track) (reused : bool)
    (st : RandomPlayer) : RandomPlayer :=
  let st := set_current_track_title (Some (title track)) st in
  if reused then
    let st := set_current_platform (Some "youtube") st in
    let st := set_youtube_playing true st in
    arm_if_known e id track st
  else if env_open_raises e then log (EvOpen (url track)) st
  else
    let st := log (EvOpen (url track)) st in
    let st := set_current_platform (Some "youtube") st in
    let st := set_youtube_playing true st in
    arm_if_known e id track st.

(** The Spotify branch of [play_track]. *)
Definition play_spotify (e : Env) (track : Track) (reused : bool)
    (st : RandomPlayer) : RandomPlayer :=
  if reused then
    let st := set_current_track_title (Some (title track)) st in
    let st := set_current_platform (Some "spotify") st in
    let st := set_spotify_playing true st in
    arm_if_known e (spotify_timer_dur 5) track st
  else
    let has_title := truthy_opt_str (_current_track_title st) in
    let st := if _youtube_playing st && has_title
              then set_youtube_playing false (close_current_tab st)
              else st in
    let st := if _spotify_playing st && has_title
              then set_spotify_playing false (close_current_tab st)
              else st in
    let st := set_current_track_title (Some (title track)) st in
    if truthy_str (url track) then
      if env_open_raises e then log (EvOpen (url track)) st
      else
        let st := log (EvOpen (url track)) st in
        let st := set_current_platform (Some "spotify") st in
        let st := set_spotify_playing true st in
        if env_focus_raises e then log (EvOpen (url track)) st
        else arm_if_known e (spotify_timer_dur 4) track st
    else st.

(** [RandomPlayer.play_track]. Saving the ledger to disk is not
    modelled. *)
Definition play_track (e : Env) (track : Track) (st : RandomPlayer)
    : RandomPlayer :=
  let reused := truthy_opt_str (_current_track_title st) && env_reused e in
  let st := log (EvNowPlaying track) st in
  let st :=
    if String.eqb (platform track) "youtube" then play_youtube e track reused st
    else if String.eqb (platform track) "spotify"
         then play_spotify e track reused st
    else st in
  let st := set_played_tracks (played_tracks st ++ [track]) st in
  let key := _track_key track in
  set_play_counts (<[key := (default 0 (play_counts st !! key) + 1)%Z]>
                     (play_counts st)) st.

(** [RandomPlayer._play_next_from_queue] *)
Definition _play_next_from_queue (e : Env) (st : RandomPlayer)
    : RandomPlayer :=
  let st := match _queue st with
            | [] => _fill_queue e None st
            | _ :: _ => st
            end in
  match _queue st with
  | track :: rest => play_track e track (set_queue rest st)
  | [] => log EvNoTracks st
  end.

(** A run of [advance()] calls, one environment per call. *)
Definition advance_all (es : list Env) (st : RandomPlayer) : RandomPlayer :=
  foldl (λ st e, _play_next_from_queue e st) st es.

(** ** Catalog synchronizer *)

(** What a catalog provider did this cycle. *)
Inductive fetch_outcome :=
  | Fetched (tracks : list Track)
  | FetchRaised.

(** [YouTubePlaylist.fetch_videos] and [SpotifyPlaylist.fetch_tracks]:
    an exception is caught and the result is the empty list. *)
Definition fetch_loud (o : fetch_outcome) : list Track :=
  match o with
  | Fetched tracks => tracks
  | FetchRaised => []
  end.

(** [RandomPlayer._fetch_youtube_silent]: keep the existing list on
    error. *)
Definition _fetch_youtube_silent (o : fetch_outcome) (st : RandomPlayer)
    : list Track :=
  match o with
  | Fetched videos => videos
  | FetchRaised => youtube_tracks st
  end.

(** [RandomPlayer._fetch_spotify_silent] *)
Definition _fetch_spotify_silent (o : fetch_outcome) (st : RandomPlayer)
    : list Track :=
  match o with
  | Fetched tracks => tracks
  | FetchRaised => spotify_tracks st
  end.

Definition urls (l : list Track) : list string := url <$> l.

(** [t.url in [a.url for a in l]] *)
Definition url_in (l : list Track) (t : Track) : Prop := url t ∈ urls l.

#[global] Instance url_in_dec l t : Decision (url_in l t).
Proof. unfold url_in. apply _. Defined.

(** The section of [load_playlists] that runs under [_playlist_lock]:
    install the new catalog and reconcile the queue with it. *)
Definition reconcile (new_youtube_tracks new_spotify_tracks : list Track)
    (st : RandomPlayer) : RandomPlayer :=
  let old_all_tracks := all_tracks st in
  let st := set_youtube_tracks new_youtube_tracks st in
  let st := set_spotify_tracks new_spotify_tracks st in
  let st := set_all_tracks (youtube_tracks st ++ spotify_tracks st) st in
  let removed_tracks :=
    filter (λ t, ¬ url_in (all_tracks st) t) (_queue st) in
  let st := match removed_tracks with
            | [] => st
            | _ :: _ => set_queue (filter (url_in (all_tracks st)) (_queue st)) st
            end in
  let new_tracks :=
    filter (λ t, ¬ url_in old_all_tracks t) (all_tracks st) in
  match new_tracks with
  | [] => st
  | _ :: _ =>
      let new_unique := filter (λ t, ¬ url_in (_queue st) t) new_tracks in
      set_queue (_queue st ++ new_unique) st
  end.

(** [RandomPlayer.load_playlists]. The stored URLs and credentials, the
    console summary and the display notification are not modelled. *)
Definition load_playlists (yt sp : fetch_outcome)
    (youtube_url spotify_url spotify_client_id spotify_client_secret : string)
    (silent : bool) (st : RandomPlayer) : RandomPlayer :=
  let min_count := min_of (map (count_of (play_counts st)) (all_tracks st)) in
  let at_min := filter (λ t, count_of (play_counts st) t = min_count) in
  let new_youtube_tracks :=
    if truthy_str youtube_url
    then at_min (if silent then _fetch_youtube_silent yt st else fetch_loud yt)
    else [] in
  let new_spotify_tracks :=
    if truthy_str spotify_url && truthy_str spotify_client_id
       && truthy_str spotify_client_secret
    then at_min (if silent then _fetch_spotify_silent sp st else fetch_loud sp)
    else [] in
  reconcile new_youtube_tracks new_spotify_tracks st.

(** ** Drag reorder *)

(** [list.insert(i, x)] for [0 <= i <= len]. *)
Definition insert_at {A} (i : nat) (x : A) (l : list A) : list A :=
  take i l ++ x :: drop i l.

(** The locked section of [Menu._run._on_tree_button_release], on the
    queue; [from_idx] and [to_idx] are [None] when the row id does not
    parse as an integer or the drop lands on no row. *)
Definition reorder (from_idx to_idx : option Z) (queue : list Track)
    : list Track :=
  match from_idx with
  | None => queue
  | Some f =>
      if (f <? 0)%Z || (Z.of_nat (length queue) <=? f)%Z then queue
      else
        match queue !! Z.to_nat f with
        | None => queue
        | Some item =>
            let queue := delete (Z.to_nat f) queue in
            match to_idx with
            | None => queue ++ [item]
            | Some t =>
                let t := if (f <? t)%Z then Z.max 0 t else t in
                let i := Z.min (Z.max 0 t) (Z.of_nat (length queue)) in
                insert_at (Z.to_nat i) item queue
            end
        end
  end.

Definition _on_tree_button_release (from_idx to_idx : option Z)
    (st : RandomPlayer) : RandomPlayer :=
  set_queue (reorder from_idx to_idx (_queue st)) st.

(** ** Sample data *)

Definition RandomPlayer_init : RandomPlayer :=
  mkPlayer [] [] [] [] None false false None ∅ [] None None None None false
           [] [].

Definition quiet : Env := mkEnv 1000 [] false false false false.

(** Draws under which [random.shuffle] leaves three elements in order. *)
Definition in_order : Env := mkEnv 1000 [2; 1]%nat false false false false.

Definition video (name : string) : Track :=
  mkTrack name "Uploader" "youtube"
          ("https://www.youtube.com/watch?v=" ++ name)
          None None None None None.

Definition song (name : string) (seconds : Q) : Track :=
  mkTrack name "Artist" "spotify"
          ("https://open.spotify.com/track/" ++ name)
          (Some ("spotify:track:" ++ name)) (Some seconds) None None None.

Definition with_catalog (yt sp : list Track) (st : RandomPlayer)
    : RandomPlayer :=
  set_all_tracks (yt ++ sp) (set_spotify_tracks sp (set_youtube_tracks yt st)).

(** ** Vocabulary of the properties *)

Open Scope list_scope.

(** [st'] differs from [st] in session and timer fields only: catalog,
    queue, ledger and history are the same, and the trace grew by events
    other than the empty-queue report. *)
Definition session_step (st st' : RandomPlayer) : Prop :=
  youtube_tracks st' = youtube_tracks st
  ∧ spotify_tracks st' = spotify_tracks st
  ∧ all_tracks st' = all_tracks st
  ∧ _queue st' = _queue st
  ∧ play_counts st' = play_counts st
  ∧ played_tracks st' = played_tracks st
  ∧ ∃ evs, trace st' = trace st ++ evs ∧ EvNoTracks ∉ evs.

(** Play counts of any two catalog tracks are at most one apart. *)
Definition fair (st : RandomPlayer) : Prop :=
  ∀ t u, t ∈ all_tracks st → u ∈ all_tracks st →
    (Z.abs (count_of (play_counts st) t - count_of (play_counts st) u) ≤ 1)%Z.

(** No playback session: no current track and no armed or paused timer. *)
Definition no_session (st : RandomPlayer) : Prop :=
  _current_track_title st = None
  ∧ _autoplay_timer st = None
  ∧ _autoplay_paused st = false.

(** The round invariant behind fairness: the queued keys are pairwise
    distinct, and a catalog track has count [M - 1] while its key waits
    in the queue and [M] once it has been played this round. *)
Definition round_inv (M : Z) (st : RandomPlayer) : Prop :=
  NoDup (_track_key <$> _queue st)
  ∧ ∀ t, t ∈ all_tracks st →
      count_of (play_counts st) t
      = if decide (_track_key t ∈ _track_key <$> _queue st)
        then (M - 1)%Z else M.

(** ** Stopping, the end of a track and the other entry points *)

(** The four bookkeeping assignments that follow a cancellation. *)
Definition clear_autoplay (st : RandomPlayer) : RandomPlayer :=
  let st := set_autoplay_start_time None st in
  let st := set_autoplay_duration None st in
  let st := set_autoplay_remaining None st in
  set_autoplay_paused false st.

(** [RandomPlayer.stop_current]; [wait_after] only selects a sleep. *)
Definition stop_current (st : RandomPlayer) : RandomPlayer :=
  let st := match _autoplay_timer st with
            | Some h => set_autoplay_timer None (cancel_timer h st)
            | None => st
            end in
  let st := clear_autoplay st in
  if negb (truthy_opt_str (_current_track_title st)) then st
  else
    let st := if _youtube_playing st || _spotify_playing st
              then close_current_tab st
              else st in
    let st := set_youtube_playing false st in
    let st := set_spotify_playing false st in
    let st := set_current_track_title None st in
    set_current_platform None st.

(** [RandomPlayer._on_track_end], the callback of the autoplay timer. *)
Definition _on_track_end (e : Env) (st : RandomPlayer) : RandomPlayer :=
  let st := match _autoplay_timer st with
            | Some h => cancel_timer h st
            | None => st
            end in
  let st := set_autoplay_timer None st in
  let st := clear_autoplay st in
  let st := stop_current st in
  _play_next_from_queue e st.

(** The timer duration [refresh_current_tab] computes for the last
    played track. *)
Definition refresh_timer_dur (last : Track) (dur : Q) : Q :=
  if String.eqb (platform last) "spotify" then spotify_timer_dur 4 dur
  else dur.

(** [RandomPlayer.refresh_current_tab]. [focused] tells whether
    [_focus_tab_by_title] found the tab, [refreshed] whether one of the
    two reload keystrokes went through, [f_raises] whether the final
    fullscreen key press raises. *)
Definition refresh_current_tab (e : Env) (focused refreshed f_raises : bool)
    (st : RandomPlayer) : RandomPlayer * bool :=
  if negb (truthy_opt_str (_current_track_title st)) then (st, false)
  else if negb focused then (st, false)
  else if negb refreshed then (st, false)
  else
    let st := match last (played_tracks st) with
              | Some last_played =>
                  arm_if_known e (refresh_timer_dur last_played)
                               last_played st
              | None => st
              end in
    match current_platform st with
    | Some p => if String.eqb p "youtube" && f_raises then (st, false)
                else (st, true)
    | None => (st, true)
    end.

(** [RandomPlayer.play_random] *)
Definition play_random (e : Env) (st : RandomPlayer) : RandomPlayer :=
  _play_next_from_queue e st.

(** [RandomPlayer.play_random_from_platform]. At most one of the two
    refills shuffles, so one environment serves both. *)
Definition play_random_from_platform (e : Env) (platform : string)
    (st : RandomPlayer) : RandomPlayer :=
  let st := match _queue st with
            | [] => _fill_queue e (Some platform) st
            | _ :: _ => st
            end in
  _play_next_from_queue e st.

(** The numeric command of the main loop: move entry [idx] to the
    front. *)
Definition move_to_front (idx : Z) (queue : list Track) : list Track :=
  if (0 <=? idx)%Z && (idx <? Z.of_nat (length queue))%Z then
    match queue !! Z.to_nat idx with
    | Some track => insert_at 0 track (delete (Z.to_nat idx) queue)
    | None => queue
    end
  else queue.

(** The [shuffle] command and [Menu._shuffle_queue]. *)
Definition shuffle_queue (e : Env) (st : RandomPlayer) : RandomPlayer :=
  set_queue (shuffle (env_draws e) (_queue st)) st.

(** [Menu._on_tree_double_click] and [_on_listbox_double], from the
    parsed queue index on. *)
Definition _on_tree_double_click (e : Env) (idx : Z) (st : RandomPlayer)
    : RandomPlayer :=
  if (idx <? 0)%Z || (Z.of_nat (length (_queue st)) <=? idx)%Z then st
  else
    match _queue st !! Z.to_nat idx with
    | Some track =>
        play_track e track (set_queue (delete (Z.to_nat idx) (_queue st)) st)
    | None => st
    end.

(** The ways the main loop, the menu window, the timer thread and the
    refresh thread drive the player. *)
Inductive action :=
  | ActNext (e : Env)
  | ActPlatform (e : Env) (platform : string)
  | ActStop
  | ActFront (idx : Z)
  | ActShuffle (e : Env)
  | ActPause (e : Env)
  | ActRefresh (e : Env) (focused refreshed f_raises : bool)
  | ActTrackEnd (e : Env)
  | ActSync (yt sp : fetch_outcome)
            (youtube_url spotify_url client_id client_secret : string)
            (silent : bool)
  | ActDrag (from_idx to_idx : option Z)
  | ActDoubleClick (e : Env) (idx : Z).

Definition step (a : action) (st : RandomPlayer) : RandomPlayer :=
  match a with
  | ActNext e => play_random e st
  | ActPlatform e platform => play_random_from_platform e platform st
  | ActStop => stop_current st
  | ActFront idx => set_queue (move_to_front idx (_queue st)) st
  | ActShuffle e => shuffle_queue e st
  | ActPause e => (pause_playback e st).1
  | ActRefresh e focused refreshed f_raises =>
      (refresh_current_tab e focused refreshed f_raises st).1
  | ActTrackEnd e => _on_track_end e st
  | ActSync yt sp youtube_url spotify_url client_id client_secret silent =>
      load_playlists yt sp youtube_url spotify_url client_id client_secret
                     silent st
  | ActDrag from_idx to_idx => _on_tree_button_release from_idx to_idx st
  | ActDoubleClick e idx => _on_tree_double_click e idx st
  end.

Definition run (acts : list action) (st : RandomPlayer) : RandomPlayer :=
  foldl (λ st a, step a st) st acts.

(** How often key [k] occurs in a play history. *)
Definition plays_of (k : string) (history : list Track) : nat :=
  length (filter (λ t, _track_key t = k) history).

(** Timer discipline: a timer that was not cancelled is the current one;
    the current timer runs with the recorded, positive duration while
    the player is not paused; a remaining time is only recorded while
    paused and is at least a tenth of a second. *)
Definition timer_inv (st : RandomPlayer) : Prop :=
  (∀ h tm, timers st !! h = Some tm → cancelled tm = false →
           _autoplay_timer st = Some h)
  ∧ (∀ h, _autoplay_timer st = Some h →
          ∃ d, timers st !! h = Some (mkTimer d false)
               ∧ _autoplay_duration st = Some d
               ∧ (0 < d)%Q
               ∧ is_Some (_autoplay_start_time st)
               ∧ _autoplay_paused st = false
               ∧ _autoplay_remaining st = None)
  ∧ (∀ r, _autoplay_remaining st = Some r →
          _autoplay_paused st = true ∧ (1#10 <= r)%Q).

(** Catalog discipline: the union list is the two source lists in a row
    and every queued URL occurs in it. *)
Definition catalog_inv (st : RandomPlayer) : Prop :=
  all_tracks st = youtube_tracks st ++ spotify_tracks st
  ∧ Forall (url_in (all_tracks st)) (_queue st).

(** The ledger follows the history: since the ledger was [base] and the
    history [hist], the tracks in [played] were played, and every ledger
    entry grew by the number of times its key occurs in [played]. *)
Definition ledger_inv (base : gmap string Z) (hist : list Track)
    (st : RandomPlayer) : Prop :=
  ∃ played,
    played_tracks st = hist ++ played
    ∧ ∀ k, default 0%Z (play_counts st !! k)
           = (default 0%Z (base !! k) + Z.of_nat (plays_of k played))%Z.

(** * Properties *)

(** ** Shuffling permutes *)

Section shuffle_facts.
Context {A : Type}.
Implicit Types x : list A.

Lemma insert_cons_perm x j (a b : A) :
  x !! j = Some b → b :: <[j:=a]> x ≡ₚ a :: x.
Proof.
  revert j. induction x as [|c x IH]; intros [|j] Hj; simplify_eq/=.
  - apply perm_swap.
  - rewrite (perm_swap c b), (IH _ Hj). apply perm_swap.
Qed.

Lemma swap_perm i j x : swap i j x ≡ₚ x.
Proof.
  unfold swap.
  destruct (x !! i) as [xi|] eqn:Hi; [|done].
  destruct (x !! j) as [xj|] eqn:Hj; [|done].
  revert i j Hi Hj.
  induction x as [|c x IH]; intros [|i] [|j] Hi Hj; simplify_eq/=.
  - done.
  - by apply insert_cons_perm.
  - symmetry. rewrite <- (insert_cons_perm x i xj xi Hi). done.
  - by rewrite IH.
Qed.

Lemma shuffle_from_perm i draws x : shuffle_from i draws x ≡ₚ x.
Proof.
  revert draws x. induction i as [|i IH]; intros draws x; simpl; [done|].
  by rewrite IH, swap_perm.
Qed.

Lemma shuffle_perm draws x : shuffle draws x ≡ₚ x.
Proof. apply shuffle_from_perm. Qed.
End shuffle_facts.

(** ** The minimum play count *)

Lemma foldl_min_le (c : Z) (cs : list Z) :
  (foldl Z.min c cs ≤ c)%Z ∧ Forall (λ c', (foldl Z.min c cs ≤ c')%Z) cs.
Proof.
  revert c. induction cs as [|c' cs IH]; intros c; simpl.
  - split; [lia | constructor].
  - destruct (IH (Z.min c c')) as [Hle Hall]. split; [lia|].
    constructor; [lia | done].
Qed.

Lemma foldl_min_in (c : Z) (cs : list Z) : foldl Z.min c cs ∈ c :: cs.
Proof.
  revert c. induction cs as [|c' cs IH]; intros c; simpl; [set_solver|].
  specialize (IH (Z.min c c')).
  apply elem_of_cons in IH as [IH|IH]; [|set_solver].
  rewrite IH. destruct (Z.min_spec c c') as [[_ ->]|[_ ->]]; set_solver.
Qed.

Lemma min_of_le (counts : list Z) :
  Forall (λ c, (min_of counts ≤ c)%Z) counts.
Proof.
  destruct counts as [|c cs]; [constructor|]. simpl.
  destruct (foldl_min_le c cs). by constructor.
Qed.

Lemma min_of_in (counts : list Z) : counts ≠ [] → min_of counts ∈ counts.
Proof. destruct counts as [|c cs]; [done|]. intros _. apply foldl_min_in. Qed.

Lemma select_min_filter (f : Track → Z) (tracks : list Track) (m : Z) :
  select_min tracks (map f tracks) m = filter (λ t, f t = m) tracks.
Proof.
  unfold select_min. induction tracks as [|t tracks IH]; [done|].
  cbn [map zip zip_with]. rewrite !filter_cons. simpl.
  destruct (decide (f t = m)); simpl; [f_equal|]; exact IH.
Qed.

(** On a non-empty slice the candidate set is never empty: the rebinding
    [candidates = tracks] of [_fill_queue] is dead code. *)
Lemma candidates_nonempty (f : Track → Z) (tracks : list Track) :
  tracks ≠ [] → filter (λ t, f t = min_of (map f tracks)) tracks ≠ [].
Proof.
  intros Hne Hnil.
  assert (min_of (map f tracks) ∈ map f tracks) as Hin.
  { apply min_of_in. by destruct tracks. }
  apply list_elem_of_fmap in Hin as (t & Ht & Htin).
  assert (t ∈ filter (λ t, f t = min_of (map f tracks)) tracks) as Hf.
  { apply list_elem_of_filter. done. }
  rewrite Hnil in Hf. by apply not_elem_of_nil in Hf.
Qed.

(** ** Refill *)

Lemma fill_queue_nonempty e platform st :
  slice platform st ≠ [] →
  let m := min_of (map (count_of (play_counts st)) (slice platform st)) in
  let candidates :=
    filter (λ t, count_of (play_counts st) t = m) (slice platform st) in
  _fill_queue e platform st
  = set_queue (_queue st ++ shuffle (env_draws e) candidates) st.
Proof.
  intros Hne m candidates. unfold _fill_queue.
  destruct (slice platform st) as [|t0 tracks] eqn:Hs; [done|].
  rewrite select_min_filter. fold m. fold candidates.
  destruct candidates as [|c cands] eqn:Hc; [|done].
  by apply candidates_nonempty in Hc.
Qed.

(** C2. [_fill_queue] leaves the player alone on an empty slice;
    otherwise it changes the queue only, appending some permutation of
    the slice tracks whose ledger count (0 when unseen) is the minimum
    over the slice, after the untouched previous queue. *)
Theorem C2_fill_queue_appends_min_candidates e platform st :
  match slice platform st with
  | [] => _fill_queue e platform st = st
  | _ :: _ =>
      let tracks := slice platform st in
      let m := min_of (map (count_of (play_counts st)) tracks) in
      Forall (λ t, (m ≤ count_of (play_counts st) t)%Z) tracks
      ∧ Exists (λ t, count_of (play_counts st) t = m) tracks
      ∧ ∃ appended,
          appended ≡ₚ filter (λ t, count_of (play_counts st) t = m) tracks
          ∧ _fill_queue e platform st
            = set_queue (_queue st ++ appended) st
  end.
Proof.
  destruct (slice platform st) as [|t0 tracks] eqn:Hs.
  { unfold _fill_queue. by rewrite Hs. }
  intros ? m. split; [|split].
  - pose proof (min_of_le (map (count_of (play_counts st)) (t0 :: tracks))) as H.
    by rewrite Forall_fmap in H.
  - assert (m ∈ map (count_of (play_counts st)) (t0 :: tracks)) as Hin
      by by apply min_of_in.
    apply list_elem_of_fmap in Hin as (t & Ht & Htin).
    apply Exists_exists. eauto.
  - eexists. split; [apply (shuffle_perm (env_draws e))|].
    rewrite fill_queue_nonempty by by rewrite Hs.
    by rewrite Hs.
Qed.

(** ** Playing a track *)

Lemma session_step_refl st : session_step st st.
Proof.
  repeat split. exists []. split; [by rewrite app_nil_r | apply not_elem_of_nil].
Qed.

Lemma session_step_trans st1 st2 st3 :
  session_step st1 st2 → session_step st2 st3 → session_step st1 st3.
Proof.
  intros (Hy & Hs & Ha & Hq & Hc & Hp & evs & Ht & Hn)
         (Hy' & Hs' & Ha' & Hq' & Hc' & Hp' & evs' & Ht' & Hn').
  repeat split; try congruence.
  exists (evs ++ evs'). split.
  - by rewrite Ht', Ht, app_assoc.
  - rewrite elem_of_app. tauto.
Qed.

Lemma session_step_log ev st : ev ≠ EvNoTracks → session_step st (log ev st).
Proof.
  intros Hev. repeat split. exists [ev]. split; [done|].
  rewrite list_elem_of_singleton. congruence.
Qed.

Lemma session_step_start_autoplay_timer e d st :
  session_step st (_start_autoplay_timer e d st).
Proof.
  unfold _start_autoplay_timer.
  destruct (Qle_bool d 0); [apply session_step_refl|].
  destruct (_autoplay_timer st); repeat split; simpl;
    exists []; (split; [by rewrite app_nil_r | apply not_elem_of_nil]).
Qed.

Lemma session_step_arm_if_known e f track st :
  session_step st (arm_if_known e f track st).
Proof.
  unfold arm_if_known. destruct (duration track) as [d|];
    [destruct (truthy_float d)|];
    auto using session_step_refl, session_step_start_autoplay_timer.
Qed.

Ltac frame_id :=
  repeat split; exists []; split;
  [by rewrite app_nil_r | apply not_elem_of_nil].

Lemma session_step_title v st : session_step st (set_current_track_title v st).
Proof. frame_id. Qed.

Lemma session_step_platform v st : session_step st (set_current_platform v st).
Proof. frame_id. Qed.

Lemma session_step_youtube_playing v st :
  session_step st (set_youtube_playing v st).
Proof. frame_id. Qed.

Lemma session_step_spotify_playing v st :
  session_step st (set_spotify_playing v st).
Proof. frame_id. Qed.

(** Peel the outermost update off the final state and recurse. *)
Ltac session :=
  repeat match goal with
  | |- session_step ?s ?s => apply session_step_refl
  | |- session_step _ (if ?b then _ else _) => destruct b
  | |- session_step _ (set_current_track_title _ _) =>
      eapply session_step_trans; [|apply session_step_title]
  | |- session_step _ (set_current_platform _ _) =>
      eapply session_step_trans; [|apply session_step_platform]
  | |- session_step _ (set_youtube_playing _ _) =>
      eapply session_step_trans; [|apply session_step_youtube_playing]
  | |- session_step _ (set_spotify_playing _ _) =>
      eapply session_step_trans; [|apply session_step_spotify_playing]
  | |- session_step _ (log _ _) =>
      eapply session_step_trans; [|by apply session_step_log]
  | |- session_step _ (arm_if_known _ _ _ _) =>
      eapply session_step_trans; [|apply session_step_arm_if_known]
  end.

Lemma session_step_play_youtube e track reused st :
  session_step st (play_youtube e track reused st).
Proof. unfold play_youtube. cbv zeta. session. Qed.

Lemma session_step_play_spotify e track reused st :
  session_step st (play_spotify e track reused st).
Proof. unfold play_spotify, close_current_tab. cbv zeta. session. Qed.

(** [play_track] appends the track to the history and adds one to its
    ledger entry; catalog and queue are untouched. *)
Lemma play_track_library e track st :
  let st' := play_track e track st in
  youtube_tracks st' = youtube_tracks st
  ∧ spotify_tracks st' = spotify_tracks st
  ∧ all_tracks st' = all_tracks st
  ∧ _queue st' = _queue st
  ∧ play_counts st'
    = <[_track_key track := (count_of (play_counts st) track + 1)%Z]>
        (play_counts st)
  ∧ played_tracks st' = played_tracks st ++ [track]
  ∧ ∃ evs, trace st' = trace st ++ evs ∧ EvNoTracks ∉ evs.
Proof.
  intros st'. subst st'. unfold play_track. cbv zeta.
  match goal with |- context [set_played_tracks _ ?m] => set (mid := m) end.
  assert (session_step st mid) as (Hy & Hs & Ha & Hq & Hc & Hp & Ht).
  { subst mid.
    destruct (String.eqb (platform track) "youtube");
      [|destruct (String.eqb (platform track) "spotify")].
    - eapply session_step_trans; [|apply session_step_play_youtube].
      by apply session_step_log.
    - eapply session_step_trans; [|apply session_step_play_spotify].
      by apply session_step_log.
    - by apply session_step_log. }
  simpl. unfold count_of. rewrite Hc, Hp. done.
Qed.

(** ** Advancing *)

Lemma play_next_from_nonempty e st track rest :
  _queue st = track :: rest →
  _play_next_from_queue e st = play_track e track (set_queue rest st).
Proof.
  intros Hq. unfold _play_next_from_queue. rewrite Hq. simpl. by rewrite Hq.
Qed.

Lemma play_next_after_refill e st :
  _queue st = [] →
  _play_next_from_queue e st
  = match _queue (_fill_queue e None st) with
    | track :: rest =>
        play_track e track (set_queue rest (_fill_queue e None st))
    | [] => log EvNoTracks (_fill_queue e None st)
    end.
Proof. intros Hq. unfold _play_next_from_queue. by rewrite Hq. Qed.

Lemma refill_all_nonempty e st :
  all_tracks st ≠ [] → _queue (_fill_queue e None st) ≠ [].
Proof.
  intros Hne. rewrite (fill_queue_nonempty e None st Hne). simpl.
  intros Hnil. apply app_eq_nil in Hnil as [_ Hnil].
  eapply candidates_nonempty; [exact Hne|].
  apply Permutation_nil_r. rewrite <- Hnil. symmetry. apply shuffle_perm.
Qed.

(** C9. [_play_next_from_queue] refills an empty queue from the whole
    catalog, then removes the head of the queue and plays it. It reports
    "No tracks in queue!" (and does nothing else) exactly when the queue
    and the catalog are both empty; the model is total, so no exception
    is raised. *)
Theorem C9_play_next_reports_nothing_only_on_empty_catalog e st :
  let refilled := match _queue st with
                  | [] => _fill_queue e None st
                  | _ :: _ => st
                  end in
  let st' := _play_next_from_queue e st in
  match _queue st, all_tracks st with
  | [], [] => st' = log EvNoTracks st
  | _, _ =>
      ∃ track rest evs,
        _queue refilled = track :: rest
        ∧ st' = play_track e track (set_queue rest refilled)
        ∧ _queue st' = rest
        ∧ played_tracks st' = played_tracks st ++ [track]
        ∧ trace st' = trace st ++ evs
        ∧ EvNoTracks ∉ evs
  end.
Proof.
  intros refilled st'. subst refilled st'.
  destruct (_queue st) as [|track rest] eqn:Hq.
  - destruct (all_tracks st) as [|a l] eqn:Ha.
    + rewrite play_next_after_refill by done.
      unfold _fill_queue. simpl. by rewrite Ha, Hq.
    + rewrite play_next_after_refill by done.
      assert (all_tracks st ≠ []) as Hne by by rewrite Ha.
      pose proof (refill_all_nonempty e st Hne) as Hfull.
      pose proof (fill_queue_nonempty e None st Hne) as Hfill.
      destruct (_queue (_fill_queue e None st)) as [|track rest] eqn:Hq';
        [done|].
      destruct (play_track_library e track
                  (set_queue rest (_fill_queue e None st)))
        as (_ & _ & _ & Hqueue & _ & Hplayed & evs & Htrace & Hevs).
      exists track, rest, evs. repeat split; try done.
      * rewrite Hplayed. simpl. by rewrite Hfill.
      * rewrite Htrace. simpl. by rewrite Hfill.
  - rewrite (play_next_from_nonempty e st track rest Hq).
    destruct (play_track_library e track (set_queue rest st))
      as (_ & _ & _ & Hqueue & _ & Hplayed & evs & Htrace & Hevs).
    assert (∃ evs0, trace (play_track e track (set_queue rest st))
                    = trace st ++ evs0 ∧ EvNoTracks ∉ evs0) as (evs0 & ? & ?)
      by eauto.
    destruct (all_tracks st); exists track, rest, evs0; repeat split; done.
Qed.

(** ** Fairness *)

Lemma count_of_insert (counts : gmap string Z) k v t :
  count_of (<[k:=v]> counts) t
  = if decide (_track_key t = k) then v else count_of counts t.
Proof.
  unfold count_of. destruct (decide (_track_key t = k)) as [->|Hne].
  - by rewrite lookup_insert_eq.
  - by rewrite lookup_insert_ne.
Qed.

Lemma min_of_constant (f : Track → Z) (tracks : list Track) (M : Z) :
  tracks ≠ [] → Forall (λ t, f t = M) tracks → min_of (map f tracks) = M.
Proof.
  intros Hne Hall.
  assert (min_of (map f tracks) ∈ map f tracks) as Hin.
  { apply min_of_in. by destruct tracks. }
  apply list_elem_of_fmap in Hin as (t & -> & Htin).
  by apply (proj1 (Forall_forall _ _) Hall).
Qed.

Lemma filter_all {A} (P : A → Prop) `{∀ x, Decision (P x)} (l : list A) :
  Forall P l → filter P l = l.
Proof.
  induction 1 as [|x l Hx Hl IH]; [done|].
  rewrite filter_cons. destruct (decide (P x)); [by rewrite IH | done].
Qed.

Lemma round_inv_fair M st : round_inv M st → fair st.
Proof.
  intros [_ Hcount] t u Ht Hu.
  rewrite (Hcount t Ht), (Hcount u Hu).
  repeat case_decide; lia.
Qed.

(** Popping the head and playing it keeps the round going. *)
Lemma round_inv_play e M st track rest :
  _queue st = track :: rest →
  round_inv M st →
  round_inv M (play_track e track (set_queue rest st)).
Proof.
  intros Hq [Hnd Hcount].
  destruct (play_track_library e track (set_queue rest st))
    as (_ & _ & Hall & Hqueue & Hcounts & _).
  remember (play_track e track (set_queue rest st)) as st' eqn:Hst'.
  clear Hst'. simpl in Hall, Hqueue, Hcounts.
  rewrite Hq in Hnd. cbn [fmap list_fmap] in Hnd.
  apply NoDup_cons in Hnd as [Hfresh Hnd].
  split; rewrite Hqueue; [done|].
  intros t Ht. rewrite Hall in Ht.
  rewrite Hcounts, count_of_insert.
  specialize (Hcount t Ht). rewrite Hq in Hcount.
  cbn [fmap list_fmap] in Hcount.
  destruct (decide (_track_key t = _track_key track)) as [Heq|Hne].
  - rewrite decide_False by by rewrite Heq.
    rewrite decide_True in Hcount by (rewrite Heq; apply list_elem_of_here).
    unfold count_of in *. rewrite <- Heq. lia.
  - rewrite Hcount. apply decide_ext. rewrite elem_of_cons. tauto.
Qed.

(** Refilling an empty queue opens the next round. *)
Lemma round_inv_refill e M st :
  NoDup (_track_key <$> all_tracks st) →
  all_tracks st ≠ [] →
  _queue st = [] →
  round_inv M st →
  round_inv (M + 1) (_fill_queue e None st).
Proof.
  intros Hkeys Hne Hq [_ Hcount].
  assert (Forall (λ t, count_of (play_counts st) t = M) (all_tracks st))
    as Hall.
  { apply Forall_forall. intros t Ht. rewrite (Hcount t Ht), Hq.
    rewrite decide_False; [done | apply not_elem_of_nil]. }
  rewrite (fill_queue_nonempty e None st Hne). simpl.
  rewrite (min_of_constant _ _ M Hne Hall), (filter_all _ _ Hall), Hq.
  simpl.
  pose proof (shuffle_perm (env_draws e) (all_tracks st)) as Hperm.
  split; simpl.
  - by rewrite Hperm.
  - intros t Ht. rewrite (proj1 (Forall_forall _ _) Hall t Ht).
    rewrite decide_True; [lia|]. rewrite Hperm. by apply list_elem_of_fmap_2.
Qed.

Lemma round_inv_step e st :
  NoDup (_track_key <$> all_tracks st) →
  (∃ M, round_inv M st) →
  all_tracks (_play_next_from_queue e st) = all_tracks st
  ∧ ∃ M, round_inv M (_play_next_from_queue e st).
Proof.
  intros Hkeys [M Hinv].
  destruct (_queue st) as [|track rest] eqn:Hq.
  - rewrite play_next_after_refill by done.
    destruct (decide (all_tracks st = [])) as [Hempty|Hne].
    + unfold _fill_queue. simpl. rewrite Hempty, Hq. simpl.
      split; [done|]. exists M. destruct Hinv as [Hnd Hcount].
      split; simpl; [done|]. intros t Ht. rewrite Hempty in Ht.
      by apply not_elem_of_nil in Ht.
    + pose proof (refill_all_nonempty e st Hne) as Hfull.
      pose proof (round_inv_refill e M st Hkeys Hne Hq Hinv) as Hinv'.
      assert (all_tracks (_fill_queue e None st) = all_tracks st) as Hall
        by by rewrite (fill_queue_nonempty e None st Hne).
      destruct (_queue (_fill_queue e None st)) as [|track rest] eqn:Hq';
        [done|].
      split.
      * destruct (play_track_library e track
                    (set_queue rest (_fill_queue e None st)))
          as (_ & _ & -> & _). done.
      * exists (M + 1)%Z. by apply round_inv_play.
  - rewrite (play_next_from_nonempty e st track rest Hq). split.
    + by destruct (play_track_library e track (set_queue rest st))
        as (_ & _ & -> & _).
    + exists M. by apply round_inv_play.
Qed.

Lemma round_inv_advance_all es st :
  NoDup (_track_key <$> all_tracks st) →
  (∃ M, round_inv M st) →
  all_tracks (advance_all es st) = all_tracks st
  ∧ ∃ M, round_inv M (advance_all es st).
Proof.
  revert st. induction es as [|e es IH]; intros st Hkeys Hinv; [done|].
  destruct (round_inv_step e st Hkeys Hinv) as [Hall Hinv'].
  destruct (IH (_play_next_from_queue e st)) as [Hall' Hinv''];
    [by rewrite Hall | done |].
  split; [|done]. simpl. by rewrite Hall'.
Qed.

(** C1 (amended). From a catalog whose tracks have pairwise distinct
    identity keys, an empty queue and equal play counts, after every
    sequence of advances the catalog is the same, the play counts of any
    two catalog tracks differ by at most 1, and no track has count
    [n + 1] while another is still below [n]. *)
Theorem C1_fairness_with_distinct_keys es st c :
  NoDup (_track_key <$> all_tracks st) →
  _queue st = [] →
  (∀ t, t ∈ all_tracks st → count_of (play_counts st) t = c) →
  let st' := advance_all es st in
  all_tracks st' = all_tracks st
  ∧ fair st'
  ∧ ∀ t u n, t ∈ all_tracks st → u ∈ all_tracks st →
      (n + 1 ≤ count_of (play_counts st') t)%Z →
      (n ≤ count_of (play_counts st') u)%Z.
Proof.
  intros Hkeys Hq Hc st'.
  assert (round_inv c st) as Hinv.
  { split; rewrite Hq; [constructor|]. intros t Ht.
    rewrite decide_False; [by apply Hc | apply not_elem_of_nil]. }
  destruct (round_inv_advance_all es st Hkeys (ex_intro _ c Hinv))
    as [Hall [M HM]].
  fold st' in Hall, HM. pose proof (round_inv_fair M st' HM) as Hfair.
  split; [done|]. split; [done|].
  intros t u n Ht Hu Hn. rewrite <- Hall in Ht, Hu.
  specialize (Hfair t u Ht Hu). lia.
Qed.

Lemma C1_fairness_with_distinct_keys_witness :
  let st := with_catalog [video "A"; video "B"] [song "C" 200] RandomPlayer_init in
  fair (advance_all [quiet; in_order; quiet; quiet] st).
Proof.
  intros st.
  refine (proj1 (proj2 (C1_fairness_with_distinct_keys
                          [quiet; in_order; quiet; quiet] st 0%Z _ _ _))).
  - apply (bool_decide_unpack _). by vm_compute.
  - reflexivity.
  - intros t Ht. vm_compute in Ht.
    repeat (apply elem_of_cons in Ht as [->|Ht]; [reflexivity|]).
    by apply not_elem_of_nil in Ht.
Defined.

(** C1 as stated fails when a catalog lists the same track twice: from
    the catalog [A; A; B] with all counts 0, two advances play A twice
    while B is still unplayed. *)
Lemma C1_counterexample_duplicate_entry :
  let st := with_catalog [video "A"; video "A"; video "B"] []
                         RandomPlayer_init in
  all_tracks st ≠ []
  ∧ _queue st = []
  ∧ (∀ t, t ∈ all_tracks st → count_of (play_counts st) t = 0%Z)
  ∧ count_of (play_counts (advance_all [in_order; in_order] st)) (video "A")
    = 2%Z
  ∧ count_of (play_counts (advance_all [in_order; in_order] st)) (video "B")
    = 0%Z
  ∧ ¬ fair (advance_all [in_order; in_order] st).
Proof.
  intros st. split; [done|]. split; [done|]. split; [|split; [|split]].
  - intros t _. reflexivity.
  - by vm_compute.
  - by vm_compute.
  - intros Hfair.
    specialize (Hfair (video "A") (video "B")).
    assert (all_tracks (advance_all [in_order; in_order] st)
            = [video "A"; video "A"; video "B"]) as Hall by by vm_compute.
    rewrite Hall in Hfair.
    assert (count_of (play_counts (advance_all [in_order; in_order] st))
              (video "A") = 2%Z) as HA by by vm_compute.
    assert (count_of (play_counts (advance_all [in_order; in_order] st))
              (video "B") = 0%Z) as HB by by vm_compute.
    rewrite HA, HB in Hfair.
    assert (Z.abs (2 - 0) ≤ 1)%Z; [|lia].
    apply Hfair; set_solver.
Qed.

(** ** Reconciliation *)

Lemma filter_none_all {A} (P : A → Prop) `{∀ x, Decision (P x)} (l : list A) :
  filter (λ x, ¬ P x) l = [] → filter P l = l.
Proof.
  intros Hnil. apply filter_all, Forall_forall. intros x Hx.
  destruct (decide (P x)) as [|Hn]; [done|].
  assert (x ∈ filter (λ x, ¬ P x) l) as Hin by by apply list_elem_of_filter.
  rewrite Hnil in Hin. by apply not_elem_of_nil in Hin.
Qed.

(** The queue after [reconcile]: the old entries whose URL survives, in
    their old order, followed by the catalog entries with a URL new to
    both the old catalog and the surviving queue. *)
Lemma reconcile_queue new_youtube_tracks new_spotify_tracks st :
  let catalog := new_youtube_tracks ++ new_spotify_tracks in
  let kept := filter (url_in catalog) (_queue st) in
  let st' := reconcile new_youtube_tracks new_spotify_tracks st in
  youtube_tracks st' = new_youtube_tracks
  ∧ spotify_tracks st' = new_spotify_tracks
  ∧ all_tracks st' = catalog
  ∧ _queue st'
    = kept ++ filter (λ t, ¬ url_in kept t)
                (filter (λ t, ¬ url_in (all_tracks st) t) catalog).
Proof.
  intros catalog kept st'. subst st'. unfold reconcile. cbv zeta. simpl.
  fold catalog.
  set (removed := filter (λ t, ¬ url_in catalog t) (_queue st)).
  assert (_queue (match removed with
                  | [] => set_all_tracks catalog
                            (set_spotify_tracks new_spotify_tracks
                               (set_youtube_tracks new_youtube_tracks st))
                  | _ :: _ =>
                      set_queue kept
                        (set_all_tracks catalog
                           (set_spotify_tracks new_spotify_tracks
                              (set_youtube_tracks new_youtube_tracks st)))
                  end) = kept) as Hkept.
  { destruct removed eqn:Hr; simpl; [|done].
    symmetry. by apply filter_none_all. }
  destruct removed;
    destruct (filter (λ t, ¬ url_in (all_tracks st) t) catalog) eqn:Hnew;
    simpl in *; rewrite ?Hkept, ?Hnew; repeat split; try done;
    by rewrite ?app_nil_r.
Qed.

Lemma url_in_filter_queue (catalog queue : list Track) t :
  t ∈ catalog →
  url_in (filter (url_in catalog) queue) t ↔ url_in queue t.
Proof.
  intros Ht. unfold url_in, urls. rewrite !list_elem_of_fmap. split.
  - intros (q & Hu & Hq). apply list_elem_of_filter in Hq as [_ Hq]. eauto.
  - intros (q & Hu & Hq). exists q. split; [done|].
    apply list_elem_of_filter. split; [|done].
    unfold url_in, urls. rewrite <- Hu. by apply list_elem_of_fmap_2.
Qed.

Lemma filter_iff_on {A} (P1 P2 : A → Prop)
    `{!∀ x, Decision (P1 x), !∀ x, Decision (P2 x)} (l : list A) :
  (∀ x, x ∈ l → P1 x ↔ P2 x) → filter P1 l = filter P2 l.
Proof.
  induction l as [|a l IH]; intros Hiff; [done|].
  rewrite !filter_cons.
  rewrite IH by (intros x Hx; apply Hiff; by apply list_elem_of_further).
  apply decide_ext, Hiff, list_elem_of_here.
Qed.

Lemma reconcile_added (catalog old queue : list Track) :
  filter (λ t, ¬ url_in (filter (url_in catalog) queue) t)
    (filter (λ t, ¬ url_in old t) catalog)
  = filter (λ t, ¬ url_in old t ∧ ¬ url_in queue t) catalog.
Proof.
  rewrite list_filter_filter. apply filter_iff_on.
  intros t Ht. rewrite url_in_filter_queue by done. tauto.
Qed.

(** C3. After a synchronization cycle with old catalog [C1], installed
    catalog [C2] and old queue [Q], the queue is the entries of [Q] whose
    URL occurs in [C2], in their old order, followed by the entries of
    [C2] whose URL occurs neither in [C1] nor in [Q]. Hence no queued URL
    is absent from [C2], and every entry of [C2] with a URL new to [C1]
    and to [Q] is queued. *)
Theorem C3_sync_reconciles_queue yt sp youtube_url spotify_url client_id
    client_secret silent st :
  let st' := load_playlists yt sp youtube_url spotify_url client_id
                            client_secret silent st in
  let C1 := all_tracks st in
  let C2 := all_tracks st' in
  let Q := _queue st in
  C2 = youtube_tracks st' ++ spotify_tracks st'
  ∧ _queue st'
    = filter (url_in C2) Q
      ++ filter (λ t, ¬ url_in C1 t ∧ ¬ url_in Q t) C2
  ∧ filter (url_in C2) Q `sublist_of` Q
  ∧ Forall (url_in C2) (_queue st')
  ∧ ∀ t, t ∈ C2 → ¬ url_in C1 t → ¬ url_in Q t → t ∈ _queue st'.
Proof.
  intros st' C1 C2 Q. subst st' C1 C2 Q. unfold load_playlists. cbv zeta.
  match goal with
  | |- context [reconcile ?y ?s st] =>
      destruct (reconcile_queue y s st) as (Hy & Hs & Hall & Hq);
      generalize dependent (reconcile y s st);
      generalize dependent y; generalize dependent s
  end.
  intros s y st' Hy Hs Hall Hq.
  rewrite reconcile_added in Hq. rewrite Hy, Hs, Hall, Hq.
  split; [done|]. split; [done|]. split; [apply sublist_filter|]. split.
  - apply Forall_app. split.
    + apply Forall_forall. intros t Ht.
      by apply list_elem_of_filter in Ht as [Ht _].
    + apply Forall_forall. intros t Ht.
      apply list_elem_of_filter in Ht as [_ Ht].
      unfold url_in, urls. by apply list_elem_of_fmap_2.
  - intros t Ht Hold Hqueue. apply elem_of_app. right.
    by apply list_elem_of_filter.
Qed.

Lemma C3_sync_reconciles_queue_witness :
  let st := set_queue [video "A"; video "B"; video "C"]
              (with_catalog [video "A"; video "B"; video "C"] []
                            RandomPlayer_init) in
  _queue (load_playlists (Fetched [video "A"; video "C"; video "D"])
            FetchRaised "https://www.youtube.com/playlist?list=PL1" "" "" ""
            true st)
  = [video "A"; video "C"; video "D"].
Proof.
  intros st.
  rewrite (proj1 (proj2 (C3_sync_reconciles_queue
             (Fetched [video "A"; video "C"; video "D"]) FetchRaised
             "https://www.youtube.com/playlist?list=PL1" "" "" "" true st))).
  by vm_compute.
Defined.

(** ** Silent fetch failure *)

(** C4 (amended). When the fetch of a source raises during a silent
    cycle, the fetch step hands back the list the source had, and the
    list published for the source is that list restricted to the tracks
    whose count equals the minimum count over the whole catalog before
    the cycle; it is the previous list itself when every track of the
    source is at that minimum. *)
Theorem C4_silent_failure_keeps_min_count_tracks other youtube_url spotify_url
    client_id client_secret st :
  let m := min_of (map (count_of (play_counts st)) (all_tracks st)) in
  let at_min := λ t, count_of (play_counts st) t = m in
  (truthy_str youtube_url = true →
     let st' := load_playlists FetchRaised other youtube_url spotify_url
                               client_id client_secret true st in
     _fetch_youtube_silent FetchRaised st = youtube_tracks st
     ∧ youtube_tracks st' = filter at_min (youtube_tracks st)
     ∧ (Forall at_min (youtube_tracks st) →
        youtube_tracks st' = youtube_tracks st))
  ∧ (truthy_str spotify_url && truthy_str client_id
       && truthy_str client_secret = true →
     let st' := load_playlists other FetchRaised youtube_url spotify_url
                               client_id client_secret true st in
     _fetch_spotify_silent FetchRaised st = spotify_tracks st
     ∧ spotify_tracks st' = filter at_min (spotify_tracks st)
     ∧ (Forall at_min (spotify_tracks st) →
        spotify_tracks st' = spotify_tracks st)).
Proof.
  intros m at_min. split; intros Hurl st'; subst st'; unfold load_playlists;
    cbv zeta; rewrite Hurl;
    match goal with
    | |- context [reconcile ?y ?s st] =>
        destruct (reconcile_queue y s st) as (Hy & Hs & _)
    end; rewrite ?Hy, ?Hs; simpl; (split; [done|]); (split; [done|]);
    intros Hall; by apply filter_all.
Qed.

Lemma C4_silent_failure_keeps_min_count_tracks_witness :
  let st := with_catalog [video "A"; video "B"] [] RandomPlayer_init in
  youtube_tracks
    (load_playlists FetchRaised FetchRaised
       "https://www.youtube.com/playlist?list=PL1" "" "" "" true st)
  = youtube_tracks st.
Proof.
  intros st.
  refine (proj2 (proj2 (proj1
     (C4_silent_failure_keeps_min_count_tracks FetchRaised
        "https://www.youtube.com/playlist?list=PL1" "" "" "" st)
     eq_refl)) _).
  apply (bool_decide_unpack _). by vm_compute.
Defined.

(** C4 as stated fails once a track of the source has been played more
    often than another catalog track: with YouTube list [A; B] and A
    played once, a silent cycle whose YouTube fetch raises publishes
    [B] only. *)
Lemma C4_counterexample_played_track_dropped :
  let st := set_play_counts {[ _track_key (video "A") := 1%Z ]}
              (with_catalog [video "A"; video "B"] [] RandomPlayer_init) in
  let st' := load_playlists FetchRaised FetchRaised
               "https://www.youtube.com/playlist?list=PL1" "" "" "" true st in
  youtube_tracks st = [video "A"; video "B"]
  ∧ youtube_tracks st' = [video "B"]
  ∧ youtube_tracks st' ≠ youtube_tracks st.
Proof. intros st st'. split; [done|]. split; by vm_compute. Qed.

(** ** Autoplay timer *)

Lemma Qltb_lt (a b : Q) : Qltb a b = true ↔ (a < b)%Q.
Proof.
  unfold Qltb. rewrite negb_true_iff, <- not_true_iff_false, Qle_bool_iff.
  split; [apply Qnot_le_lt | apply Qlt_not_le].
Qed.

Lemma Qltb_ge (a b : Q) : Qltb a b = false ↔ (b <= a)%Q.
Proof. unfold Qltb. by rewrite negb_false_iff, Qle_bool_iff. Qed.

Lemma Qle_bool_gt (a b : Q) : Qle_bool a b = false ↔ (b < a)%Q.
Proof.
  rewrite <- not_true_iff_false, Qle_bool_iff.
  split; [apply Qnot_le_lt | apply Qlt_not_le].
Qed.

Lemma py_max_ge (a b : Q) : (a <= py_max a b)%Q ∧ (b <= py_max a b)%Q.
Proof.
  unfold py_max. destruct (Qltb a b) eqn:H.
  - apply Qltb_lt in H. split; lra.
  - apply Qltb_ge in H. split; lra.
Qed.

Lemma truthy_float_pos (q : Q) : (0 < q)%Q → truthy_float q = true.
Proof.
  intros Hq. unfold truthy_float. rewrite negb_true_iff.
  apply not_true_iff_false. rewrite Qeq_bool_iff. lra.
Qed.

(** What arming with a positive duration does. *)
Lemma start_autoplay_timer_pos e d st :
  (0 < d)%Q →
  _start_autoplay_timer e d st
  = set_autoplay_timer (Some (length (timers st)))
      (set_timers
         (match _autoplay_timer st with
          | Some h => alter (λ tm, mkTimer (interval tm) true) h (timers st)
          | None => timers st
          end ++ [mkTimer d false])
         (set_autoplay_paused false
            (set_autoplay_remaining None
               (set_autoplay_duration (Some d)
                  (set_autoplay_start_time (Some (env_now e)) st))))).
Proof.
  intros Hd. unfold _start_autoplay_timer.
  apply Qle_bool_gt in Hd. rewrite Hd.
  destruct (_autoplay_timer st); unfold cancel_timer; simpl;
    by rewrite ?length_alter.
Qed.

(** C6 (amended). [_start_autoplay_timer] with [duration <= 0] leaves the
    player as it is: an unarmed timer stays unarmed, and an existing
    timer is neither cancelled nor replaced. With [duration > 0] it
    cancels the existing timer, if any, and arms a fresh one with that
    duration and start time [now], clearing the pause bookkeeping. *)
Theorem C6_arm_cancels_only_for_positive_duration e d st :
  ((d <= 0)%Q → _start_autoplay_timer e d st = st)
  ∧ ((0 < d)%Q →
     let st' := _start_autoplay_timer e d st in
     let fresh := length (timers st) in
     (∀ h, _autoplay_timer st = Some h → h < fresh →
        timers st' !! h
        = (λ tm, mkTimer (interval tm) true) <$> timers st !! h)
     ∧ _autoplay_timer st' = Some fresh
     ∧ timers st' !! fresh = Some (mkTimer d false)
     ∧ _autoplay_start_time st' = Some (env_now e)
     ∧ _autoplay_duration st' = Some d
     ∧ _autoplay_remaining st' = None
     ∧ _autoplay_paused st' = false).
Proof.
  split.
  - intros Hd. unfold _start_autoplay_timer.
    apply Qle_bool_iff in Hd. by rewrite Hd.
  - intros Hd st' fresh. subst st' fresh.
    rewrite start_autoplay_timer_pos by done. simpl.
    repeat split.
    + intros h Hh Hlt. rewrite Hh.
      rewrite lookup_app_l by by rewrite length_alter.
      apply list_lookup_alter_eq.
    + destruct (_autoplay_timer st).
      * rewrite lookup_app_r by by rewrite length_alter.
        by rewrite length_alter, Nat.sub_diag.
      * by rewrite lookup_app_r, Nat.sub_diag.
Qed.

Lemma C6_arm_cancels_only_for_positive_duration_witness :
  _start_autoplay_timer quiet 0 RandomPlayer_init = RandomPlayer_init
  ∧ _autoplay_duration (_start_autoplay_timer quiet 30 RandomPlayer_init)
    = Some 30%Q.
Proof.
  split.
  - apply (proj1 (C6_arm_cancels_only_for_positive_duration
                    quiet 0 RandomPlayer_init)). by vm_compute.
  - refine (proj1 (proj2 (proj2 (proj2 (proj2
      (proj2 (C6_arm_cancels_only_for_positive_duration
                quiet 30 RandomPlayer_init) _)))))).
    reflexivity.
Defined.

(** C6 as stated fails on an armed timer: arming with duration 0 returns
    before the cancellation, so the old 30-second timer is still the
    current one and still running. *)
Lemma C6_counterexample_zero_duration_keeps_timer :
  let st := _start_autoplay_timer quiet 30 RandomPlayer_init in
  let st' := _start_autoplay_timer quiet 0 st in
  _autoplay_timer st = Some 0%nat
  ∧ _autoplay_timer st' = Some 0%nat
  ∧ timers st' !! 0%nat = Some (mkTimer 30 false)
  ∧ _autoplay_timer st' ≠ None.
Proof. intros st st'. by vm_compute. Qed.

(** ** Pause and resume *)

Lemma pause_playback_state e st :
  (pause_playback e st).1 = pause_bookkeeping e st
  ∨ (pause_playback e st).1 = log (EvPress "space") (pause_bookkeeping e st).
Proof. unfold pause_playback. destruct (env_press_raises e); auto. Qed.

Lemma pause_bookkeeping_armed e h d s st :
  _autoplay_timer st = Some h →
  _autoplay_paused st = false →
  _autoplay_start_time st = Some s →
  _autoplay_duration st = Some d →
  (0 < s)%Q → (0 < d)%Q →
  pause_bookkeeping e st
  = set_autoplay_paused true
      (set_autoplay_remaining
         (Some (py_max (1#10) (d - (env_now e - s))))
         (set_autoplay_timer None (cancel_timer h st))).
Proof.
  intros Ht Hp Hs Hd Hspos Hdpos. unfold pause_bookkeeping.
  rewrite Ht, Hp, Hs, Hd. simpl.
  by rewrite !truthy_float_pos.
Qed.

Lemma pause_bookkeeping_paused e r st :
  _autoplay_timer st = None →
  _autoplay_paused st = true →
  _autoplay_remaining st = Some r →
  pause_bookkeeping e st
  = set_autoplay_paused false
      (set_autoplay_remaining None (_start_autoplay_timer e r st)).
Proof.
  intros Ht Hp Hr. unfold pause_bookkeeping. by rewrite Ht, Hp, Hr.
Qed.

(** C5. Pausing an armed timer (duration [d], start time [s], both
    positive) cancels the countdown and records
    [remaining = max(0.1, d - (now - s))]; the player is then paused with
    no live timer. Pausing again resumes: a fresh timer is armed with
    duration [remaining] from the current time and the pause bookkeeping
    is cleared. *)
Theorem C5_pause_records_remaining_and_resume_rearms e_pause e_resume h d s st :
  _autoplay_timer st = Some h →
  _autoplay_paused st = false →
  _autoplay_start_time st = Some s →
  _autoplay_duration st = Some d →
  (0 < s)%Q → (0 < d)%Q →
  let left := (d - (env_now e_pause - s))%Q in
  let remaining := py_max (1#10) left in
  let paused := (pause_playback e_pause st).1 in
  let resumed := (pause_playback e_resume paused).1 in
  ((1#10 <= remaining)%Q ∧ (left <= remaining)%Q
   ∧ ((1#10 < left)%Q → remaining = left))
  ∧ (timers paused
     = alter (λ tm, mkTimer (interval tm) true) h (timers st)
     ∧ _autoplay_timer paused = None
     ∧ _autoplay_remaining paused = Some remaining
     ∧ _autoplay_paused paused = true)
  ∧ (_autoplay_timer resumed = Some (length (timers st))
     ∧ timers resumed !! length (timers st) = Some (mkTimer remaining false)
     ∧ _autoplay_duration resumed = Some remaining
     ∧ _autoplay_start_time resumed = Some (env_now e_resume)
     ∧ _autoplay_remaining resumed = None
     ∧ _autoplay_paused resumed = false).
Proof.
  intros Ht Hp Hs Hd Hspos Hdpos left remaining paused resumed.
  pose proof (py_max_ge (1#10) left) as [Hfloor Hleft].
  change (py_max (1#10) left) with remaining in Hfloor, Hleft.
  assert ((0 < remaining)%Q) as Hpos by lra.
  split; [|split].
  - split; [done|]. split; [done|]. intros Hlt. subst remaining.
    unfold py_max. apply Qltb_lt in Hlt. by rewrite Hlt.
  - subst paused.
    destruct (pause_playback_state e_pause st) as [-> | ->];
      rewrite (pause_bookkeeping_armed e_pause h d s st) by done; done.
  - assert (_autoplay_timer paused = None
            ∧ _autoplay_paused paused = true
            ∧ _autoplay_remaining paused = Some remaining
            ∧ length (timers paused) = length (timers st))
      as (Ht' & Hp' & Hr' & Hlen).
    { subst paused.
      destruct (pause_playback_state e_pause st) as [-> | ->];
        rewrite (pause_bookkeeping_armed e_pause h d s st) by done;
        simpl; by rewrite length_alter. }
    subst resumed.
    destruct (pause_playback_state e_resume paused) as [-> | ->];
      rewrite (pause_bookkeeping_paused e_resume remaining paused) by done;
      rewrite start_autoplay_timer_pos by done; rewrite Ht'; simpl;
      rewrite <- Hlen; repeat split;
      by rewrite lookup_app_r, Nat.sub_diag.
Qed.

Lemma C5_pause_records_remaining_and_resume_rearms_witness :
  let armed := _start_autoplay_timer quiet 200 RandomPlayer_init in
  let later := mkEnv 1060 [] false false false false in
  _autoplay_remaining (pause_playback later armed).1 = Some (200 - (1060 - 1000))%Q
  ∧ _autoplay_duration (pause_playback quiet (pause_playback later armed).1).1
    = Some (200 - (1060 - 1000))%Q.
Proof.
  intros armed later.
  pose proof (C5_pause_records_remaining_and_resume_rearms later quiet
                0%nat 200 1000 armed eq_refl eq_refl eq_refl eq_refl
                eq_refl eq_refl) as (_ & (_ & _ & Hr & _) & (_ & _ & Hd & _)).
  split; [exact Hr | exact Hd].
Defined.

(** ** Spotify duration adjustment *)

Lemma spotify_timer_dur_bounds (offset d : Q) :
  (0 < d)%Q →
  let a := spotify_timer_dur offset d in
  (1#2 <= a)%Q
  ∧ ((1 <= d - offset)%Q → a = (d - offset)%Q)
  ∧ ((d - offset < 1)%Q → ((9#10) * d <= a)%Q)
  ∧ ((10 * offset <= d)%Q → ((9#10) * d <= a)%Q)
  ∧ ((1 <= d - offset)%Q → (d < 10 * offset)%Q → (a < (9#10) * d)%Q).
Proof.
  intros Hd a. subst a. unfold spotify_timer_dur.
  pose proof (py_max_ge (1#2) (d * (9#10))) as [Hhalf Hninety].
  destruct (Qltb offset d) eqn:Hoff;
    [apply Qltb_lt in Hoff | apply Qltb_ge in Hoff].
  - destruct (Qltb (d - offset) 1) eqn:Hshort;
      [apply Qltb_lt in Hshort | apply Qltb_ge in Hshort];
      repeat split; intros; try done; lra.
  - destruct (Qltb d 1) eqn:Hshort;
      [apply Qltb_lt in Hshort | apply Qltb_ge in Hshort];
      repeat split; intros; lra.
Qed.

Lemma arm_if_known_duration e f track d st :
  duration track = Some d → (0 < d)%Q → (0 < f d)%Q →
  _autoplay_duration (arm_if_known e f track st) = Some (f d).
Proof.
  intros Hdur Hd Hf. unfold arm_if_known.
  rewrite Hdur, truthy_float_pos by done.
  by rewrite start_autoplay_timer_pos.
Qed.

Lemma play_spotify_arms e track reused st :
  reused || (truthy_str (url track) && negb (env_open_raises e)
             && negb (env_focus_raises e)) = true →
  ∃ mid, play_spotify e track reused st
         = arm_if_known e (spotify_timer_dur (if reused then 5 else 4))
             track mid.
Proof.
  intros Hpath. unfold play_spotify. destruct reused; [by eexists|].
  simpl in Hpath. apply andb_true_iff in Hpath as [Hpath Hfocus].
  apply andb_true_iff in Hpath as [Hurl Hopen].
  apply negb_true_iff in Hfocus, Hopen.
  cbv zeta. rewrite Hurl, Hopen, Hfocus. by eexists.
Qed.

(** C7 (amended). For a Spotify track of known duration [d > 0], when
    [play_track] gets to arm the timer (tab reused, or the page opened
    and the desktop app focused without error) the armed duration is
    [spotify_timer_dur offset d] with offset 5 on a reused tab and 4 on a
    fresh one. That value is [d - offset] when this is at least 1 second;
    it is never below 0.5 seconds; it is at least [0.9 * d] when
    [d - offset < 1] or [d >= 10 * offset], and below [0.9 * d] for the
    durations in between. *)
Theorem C7_spotify_armed_duration e track d st :
  platform track = "spotify" →
  duration track = Some d →
  (0 < d)%Q →
  let reused := truthy_opt_str (_current_track_title st) && env_reused e in
  let offset := if reused then 5%Q else 4%Q in
  let a := spotify_timer_dur offset d in
  (reused || (truthy_str (url track) && negb (env_open_raises e)
              && negb (env_focus_raises e)) = true →
   _autoplay_duration (play_track e track st) = Some a)
  ∧ (1#2 <= a)%Q
  ∧ ((1 <= d - offset)%Q → a = (d - offset)%Q)
  ∧ ((d - offset < 1)%Q → ((9#10) * d <= a)%Q)
  ∧ ((10 * offset <= d)%Q → ((9#10) * d <= a)%Q)
  ∧ ((1 <= d - offset)%Q → (d < 10 * offset)%Q → (a < (9#10) * d)%Q).
Proof.
  intros Hplat Hdur Hd reused offset a.
  destruct (spotify_timer_dur_bounds offset d Hd)
    as (Hfloor & Hexact & Hshort & Hlong & Hbelow).
  split; [|done].
  intros Hpath. unfold play_track. rewrite Hplat. cbn [String.eqb].
  change (String.eqb "spotify" "youtube") with false.
  change (String.eqb "spotify" "spotify") with true. cbv iota zeta. simpl.
  destruct (play_spotify_arms e track reused (log (EvNowPlaying track) st) Hpath)
    as [mid Hmid].
  fold reused. rewrite Hmid. fold offset.
  apply arm_if_known_duration; [done | done |].
  apply Qlt_le_trans with (1#2)%Q; [reflexivity | exact Hfloor].
Qed.

Lemma C7_spotify_armed_duration_witness :
  _autoplay_duration (play_track quiet (song "S" 200) RandomPlayer_init)
  = Some (200 - 4)%Q.
Proof.
  pose proof (C7_spotify_armed_duration quiet (song "S" 200) 200
                RandomPlayer_init eq_refl eq_refl eq_refl)
    as (Harmed & _).
  exact (Harmed eq_refl).
Defined.

(** C7 as stated fails for a 10-second track: on a fresh tab the armed
    duration is 6 seconds, below 0.9 * 10 = 9 seconds. *)
Lemma C7_counterexample_ten_second_track :
  _autoplay_duration (play_track quiet (song "S" 10) RandomPlayer_init)
  = Some 6%Q
  ∧ ¬ ((9#10) * 10 <= 6)%Q.
Proof. split; by vm_compute. Qed.

(** ** Drag reorder *)

Lemma insert_at_spec {A} (k : nat) (x : A) (l : list A) :
  (k ≤ length l)%nat →
  insert_at k x l !! k = Some x
  ∧ delete k (insert_at k x l) = l
  ∧ length (insert_at k x l) = S (length l)
  ∧ insert_at k x l ≡ₚ x :: l.
Proof.
  intros Hk. unfold insert_at.
  assert (length (take k l) = k) as Hlen by (rewrite length_take; lia).
  repeat split.
  - rewrite lookup_app_r by lia. by rewrite Hlen, Nat.sub_diag.
  - pose proof (delete_middle (take k l) (drop k l) x) as Hdel.
    rewrite Hlen in Hdel. by rewrite Hdel, take_drop.
  - rewrite length_app. simpl. rewrite length_take, length_drop. lia.
  - rewrite <- Permutation_middle. by rewrite take_drop.
Qed.

(** C8. Dragging the entry at [from_idx] onto index [to_idx] removes the
    entry first and then inserts it into the shortened queue at
    [to_idx], clamped to the range from 0 to the length of the shortened
    queue: the entry ends at that position, the other entries keep their
    order, and no target index makes the operation fail. On [A; B; C],
    moving index 2 to index 0 gives [C; A; B]. *)
Theorem C8_reorder_remove_then_insert (from_idx : nat) (to_idx : Z)
    (queue : list Track) (item : Track) :
  queue !! from_idx = Some item →
  let removed := delete from_idx queue in
  let k := Z.to_nat (Z.min (Z.max 0 to_idx) (Z.of_nat (length removed))) in
  let result := reorder (Some (Z.of_nat from_idx)) (Some to_idx) queue in
  result = take k removed ++ item :: drop k removed
  ∧ result !! k = Some item
  ∧ delete k result = removed
  ∧ length result = length queue
  ∧ result ≡ₚ queue
  ∧ ((0 ≤ to_idx ≤ Z.of_nat (length removed))%Z → k = Z.to_nat to_idx)
  ∧ ((Z.of_nat (length removed) < to_idx)%Z → k = length removed)
  ∧ ((to_idx < 0)%Z → k = 0%nat)
  ∧ ∀ A B C : Track,
      reorder (Some 2%Z) (Some 0%Z) [A; B; C] = [C; A; B].
Proof.
  intros Hitem removed k result.
  pose proof (lookup_lt_Some _ _ _ Hitem) as Hlt.
  assert (k ≤ length removed)%nat as Hk by (subst k; lia).
  assert (result = insert_at k item removed) as ->.
  { subst result. unfold reorder.
    replace (Z.of_nat from_idx <? 0)%Z with false by lia.
    replace (Z.of_nat (length queue) <=? Z.of_nat from_idx)%Z with false
      by lia.
    simpl. rewrite Nat2Z.id, Hitem. fold removed.
    replace (Z.max 0 (if (Z.of_nat from_idx <? to_idx)%Z
                      then Z.max 0 to_idx else to_idx))
      with (Z.max 0 to_idx) by (destruct (_ <? _)%Z; lia).
    done. }
  destruct (insert_at_spec k item removed Hk) as (Hat & Hdel & Hlen & Hperm).
  assert (length removed = pred (length queue)) as Hrem.
  { subst removed. rewrite length_delete by eauto. lia. }
  split; [done|]. split; [done|]. split; [done|]. split; [lia|].
  split; [by rewrite Hperm, (delete_Permutation queue from_idx item)|].
  split; [subst k; lia|]. split; [subst k; lia|]. split; [subst k; lia|].
  done.
Qed.

Lemma C8_reorder_remove_then_insert_witness :
  reorder (Some 0%Z) (Some 7%Z) [video "A"; video "B"; video "C"]
  = [video "B"; video "C"; video "A"].
Proof.
  exact (proj1 (C8_reorder_remove_then_insert 0 7
                  [video "A"; video "B"; video "C"] (video "A") eq_refl)).
Defined.

(** ** Pausing without a session *)

(** C10 (amended). With no playback session, [pause_playback] leaves
    every field of the player as it was, still sends the space key, and
    returns [True]; it returns [False] only when the key press raises. *)
Theorem C10_pause_without_session_presses_space e st :
  no_session st →
  pause_bookkeeping e st = st
  ∧ pause_playback e st
    = if env_press_raises e then (st, false)
      else (log (EvPress "space") st, true).
Proof.
  intros (_ & Htimer & Hpaused).
  assert (pause_bookkeeping e st = st) as Hsame.
  { unfold pause_bookkeeping. by rewrite Htimer, Hpaused. }
  split; [done|]. unfold pause_playback. by rewrite Hsame.
Qed.

Lemma C10_pause_without_session_presses_space_witness :
  pause_playback quiet RandomPlayer_init
  = (log (EvPress "space") RandomPlayer_init, true).
Proof.
  refine (proj2 (C10_pause_without_session_presses_space
                   quiet RandomPlayer_init _)).
  by vm_compute.
Defined.

(** C10 as stated fails on a fresh player: with no session
    [pause_playback] reports success. *)
Lemma C10_counterexample_reports_success :
  no_session RandomPlayer_init
  ∧ (pause_playback quiet RandomPlayer_init).2 = true
  ∧ (pause_playback quiet RandomPlayer_init).2 ≠ false.
Proof. by vm_compute. Qed.

(** * Further properties of the code *)

(** ** Identity keys *)

Lemma truthy_str_nonempty (s : string) : truthy_str s = true → s ≠ "".
Proof. by destruct s. Qed.

Lemma append_nonempty (s r : string) : r ≠ "" → (s ++ r)%string ≠ "".
Proof. intros Hr. destruct s; [done|]. simpl. discriminate. Qed.

(** X1. The identity key of a track is never the empty string, and two
    tracks with the same non-empty URI have the same key whatever their
    titles, artists and URLs are. *)
Theorem track_key_nonempty_and_stable :
  (∀ t, _track_key t ≠ "")
  ∧ (∀ t u, uri t = uri u → truthy_opt_str (uri t) = true →
            _track_key t = _track_key u ∧ Some (_track_key t) = uri t).
Proof.
  split.
  - intros t. unfold _track_key.
    destruct (uri t) as [s|] eqn:Huri; simpl.
    + destruct (truthy_str s) eqn:Hs; [by apply truthy_str_nonempty|].
      destruct (truthy_str (url t)) eqn:Hu; [by apply truthy_str_nonempty|].
      by apply append_nonempty.
    + destruct (truthy_str (url t)) eqn:Hu; [by apply truthy_str_nonempty|].
      by apply append_nonempty.
  - intros t u Heq Htruthy. unfold _track_key.
    rewrite <- Heq, Htruthy. split; [done|].
    destruct (uri t); [done | discriminate].
Qed.

Lemma track_key_nonempty_and_stable_witness :
  _track_key (song "S" 200)
  = _track_key (mkTrack "S (Remastered)" "Somebody Else" "spotify" ""
                        (Some "spotify:track:S") None None None None).
Proof.
  exact (proj1 (proj2 track_key_nonempty_and_stable
                  (song "S" 200)
                  (mkTrack "S (Remastered)" "Somebody Else" "spotify" ""
                           (Some "spotify:track:S") None None None None)
                  eq_refl eq_refl)).
Defined.

(** ** Queue edits *)

Lemma reorder_perm from_idx to_idx (queue : list Track) :
  reorder from_idx to_idx queue ≡ₚ queue.
Proof.
  unfold reorder. destruct from_idx as [f|]; [|done].
  destruct ((f <? 0)%Z || (Z.of_nat (length queue) <=? f)%Z) eqn:Hrange;
    [done|].
  destruct (queue !! Z.to_nat f) as [item|] eqn:Hitem; [|done].
  transitivity (item :: delete (Z.to_nat f) queue);
    [|symmetry; by apply delete_Permutation].
  destruct to_idx as [t|].
  - apply insert_at_spec. lia.
  - by rewrite <- Permutation_cons_append.
Qed.

Lemma move_to_front_perm idx (queue : list Track) :
  move_to_front idx queue ≡ₚ queue.
Proof.
  unfold move_to_front.
  destruct ((0 <=? idx)%Z && (idx <? Z.of_nat (length queue))%Z); [|done].
  destruct (queue !! Z.to_nat idx) as [track|] eqn:Hitem; [|done].
  symmetry. by apply delete_Permutation.
Qed.

(** X2. The three queue edits (drag reorder, move to front, shuffle)
    only rearrange: for every index, parsed or not, in range or not, and
    every outcome of the random generator, the queue afterwards holds
    the same entries the same number of times, and the rest of the
    player is untouched. *)
Theorem queue_edits_only_rearrange st :
  (∀ from_idx to_idx,
     ∃ q, _on_tree_button_release from_idx to_idx st = set_queue q st
          ∧ q ≡ₚ _queue st)
  ∧ (∀ idx, move_to_front idx (_queue st) ≡ₚ _queue st)
  ∧ (∀ e, ∃ q, shuffle_queue e st = set_queue q st ∧ q ≡ₚ _queue st).
Proof.
  split; [|split].
  - intros f t. eexists. split; [reflexivity | apply reorder_perm].
  - intros idx. apply move_to_front_perm.
  - intros e. eexists. split; [reflexivity | apply shuffle_perm].
Qed.

(** X3. An index outside the queue makes drag reorder, move to front and
    double click do nothing, and dropping a dragged entry beside the
    rows moves it to the end of the queue. *)
Theorem queue_edits_out_of_range e (idx : Z) st :
  (idx < 0 ∨ Z.of_nat (length (_queue st)) ≤ idx)%Z →
  (∀ to_idx, _on_tree_button_release (Some idx) to_idx st = st)
  ∧ move_to_front idx (_queue st) = _queue st
  ∧ _on_tree_double_click e idx st = st
  ∧ ∀ (i : nat) item, _queue st !! i = Some item →
      reorder (Some (Z.of_nat i)) None (_queue st)
      = delete i (_queue st) ++ [item].
Proof.
  intros Hout.
  assert ((idx <? 0)%Z || (Z.of_nat (length (_queue st)) <=? idx)%Z = true)
    as Hguard by (apply orb_true_iff; lia).
  split; [|split; [|split]].
  - intros to_idx. unfold _on_tree_button_release, reorder.
    rewrite Hguard. by destruct st.
  - unfold move_to_front.
    replace ((0 <=? idx)%Z && (idx <? Z.of_nat (length (_queue st)))%Z)
      with false; [done|].
    symmetry. apply andb_false_iff. lia.
  - unfold _on_tree_double_click. by rewrite Hguard.
  - intros i item Hitem. unfold reorder.
    pose proof (lookup_lt_Some _ _ _ Hitem).
    replace (Z.of_nat i <? 0)%Z with false by lia.
    replace (Z.of_nat (length (_queue st)) <=? Z.of_nat i)%Z with false
      by lia.
    simpl. by rewrite Nat2Z.id, Hitem.
Qed.

Lemma queue_edits_out_of_range_witness :
  let st := set_queue [video "A"; video "B"] RandomPlayer_init in
  move_to_front 2 (_queue st) = _queue st.
Proof.
  intros st.
  refine (proj1 (proj2 (queue_edits_out_of_range quiet 2 st _))).
  right. by vm_compute.
Defined.

(** X4. Moving entry [idx] to the front puts it first and keeps the
    other entries in order; it is the drag of that entry onto the first
    row. *)
Theorem move_to_front_is_drag_to_top (idx : nat) (queue : list Track) track :
  queue !! idx = Some track →
  move_to_front (Z.of_nat idx) queue = track :: delete idx queue
  ∧ move_to_front (Z.of_nat idx) queue
    = reorder (Some (Z.of_nat idx)) (Some 0%Z) queue.
Proof.
  intros Hitem. pose proof (lookup_lt_Some _ _ _ Hitem) as Hlt.
  unfold move_to_front, reorder.
  replace (0 <=? Z.of_nat idx)%Z with true by lia.
  replace (Z.of_nat idx <? Z.of_nat (length queue))%Z with true by lia.
  replace (Z.of_nat idx <? 0)%Z with false by lia.
  replace (Z.of_nat (length queue) <=? Z.of_nat idx)%Z with false by lia.
  simpl. rewrite Nat2Z.id, Hitem. split; [done|].
  replace (Z.min _ _) with 0%Z; [done|].
  destruct (Z.of_nat idx <? 0)%Z; lia.
Qed.

Lemma move_to_front_is_drag_to_top_witness :
  move_to_front 2 [video "A"; video "B"; video "C"]
  = [video "C"; video "A"; video "B"].
Proof.
  exact (proj1 (move_to_front_is_drag_to_top 2
                  [video "A"; video "B"; video "C"] (video "C") eq_refl)).
Defined.

(** ** Timer discipline *)

Lemma timer_inv_init : timer_inv RandomPlayer_init.
Proof. split; [|split]; simpl; done. Qed.

(** Fields the timer discipline does not read may change freely. *)
Lemma timer_inv_ext st st' :
  timers st' = timers st →
  _autoplay_timer st' = _autoplay_timer st →
  _autoplay_start_time st' = _autoplay_start_time st →
  _autoplay_duration st' = _autoplay_duration st →
  _autoplay_remaining st' = _autoplay_remaining st →
  _autoplay_paused st' = _autoplay_paused st →
  timer_inv st → timer_inv st'.
Proof.
  unfold timer_inv. intros -> -> -> -> -> ->. done.
Qed.

(** Cancelling the current timer leaves no timer running. *)
Lemma cancel_current_all_cancelled st :
  timer_inv st →
  ∀ h tm,
    match _autoplay_timer st with
    | Some c => alter (λ tm, mkTimer (interval tm) true) c (timers st)
    | None => timers st
    end !! h = Some tm →
    cancelled tm = true.
Proof.
  intros (Hlive & _ & _) h tm Hh.
  destruct (cancelled tm) eqn:Hc; [done|].
  destruct (_autoplay_timer st) as [c|] eqn:Hcur.
  - destruct (decide (c = h)) as [->|Hne].
    + rewrite list_lookup_alter_eq in Hh.
      destruct (timers st !! h); simplify_eq/=.
    + rewrite list_lookup_alter_ne in Hh by done.
      specialize (Hlive h tm Hh Hc). congruence.
  - specialize (Hlive h tm Hh Hc). congruence.
Qed.

Lemma timer_inv_start e d st :
  timer_inv st → timer_inv (_start_autoplay_timer e d st).
Proof.
  intros Hinv. destruct (Qle_bool d 0) eqn:Hd.
  { unfold _start_autoplay_timer. by rewrite Hd. }
  apply Qle_bool_gt in Hd. rewrite start_autoplay_timer_pos by done.
  pose proof (cancel_current_all_cancelled st Hinv) as Hdead.
  set (old := match _autoplay_timer st with
              | Some c => alter (λ tm, mkTimer (interval tm) true) c (timers st)
              | None => timers st
              end) in *.
  assert (length old = length (timers st)) as Hlen.
  { subst old. destruct (_autoplay_timer st); by rewrite ?length_alter. }
  split; [|split]; simpl.
  - intros h tm Hh Hc. f_equal.
    destruct (decide (h < length old)%nat) as [Hlt|Hge].
    + rewrite lookup_app_l in Hh by done.
      specialize (Hdead h tm Hh). congruence.
    + apply lookup_lt_Some in Hh. rewrite length_app in Hh. simpl in Hh. lia.
  - intros h [= <-]. exists d.
    rewrite lookup_app_r by lia. rewrite Hlen, Nat.sub_diag. eauto 10.
  - done.
Qed.

Lemma timer_inv_arm_if_known e f track st :
  timer_inv st → timer_inv (arm_if_known e f track st).
Proof.
  intros Hinv. unfold arm_if_known.
  destruct (duration track) as [d|]; [destruct (truthy_float d)|];
    auto using timer_inv_start.
Qed.

(** Peel updates of fields the discipline does not read. *)
Ltac timer_peel :=
  repeat match goal with
  | |- timer_inv (if ?b then _ else _) => destruct b
  | |- timer_inv (arm_if_known _ _ _ _) => apply timer_inv_arm_if_known
  | |- timer_inv (_start_autoplay_timer _ _ _) => apply timer_inv_start
  | |- timer_inv (?f _ ?s) => change (timer_inv s)
  end.

Lemma timer_inv_play_track e track st :
  timer_inv st → timer_inv (play_track e track st).
Proof.
  intros Hinv.
  unfold play_track, play_youtube, play_spotify, close_current_tab.
  cbv zeta. timer_peel; done.
Qed.

Lemma timer_inv_cancel_current st :
  timer_inv st →
  timer_inv (clear_autoplay
               (set_autoplay_timer None
                  (match _autoplay_timer st with
                   | Some h => cancel_timer h st
                   | None => st
                   end))).
Proof.
  intros Hinv. pose proof (cancel_current_all_cancelled st Hinv) as Hdead.
  split; [|split]; simpl; try done.
  intros h tm Hh Hc.
  assert (cancelled tm = true); [|congruence].
  apply (Hdead h). by destruct (_autoplay_timer st).
Qed.

Lemma timer_inv_stop_current st : timer_inv st → timer_inv (stop_current st).
Proof.
  intros Hinv. apply timer_inv_cancel_current in Hinv.
  assert (timer_inv
            (clear_autoplay
               (match _autoplay_timer st with
                | Some h => set_autoplay_timer None (cancel_timer h st)
                | None => st
                end))) as Hstopped.
  { destruct (_autoplay_timer st) eqn:Hcur; [done|].
    eapply timer_inv_ext; [..|exact Hinv]; simpl; congruence. }
  unfold stop_current, close_current_tab. cbv zeta.
  timer_peel; exact Hstopped.
Qed.

Lemma timer_inv_pause_bookkeeping e st :
  timer_inv st → timer_inv (pause_bookkeeping e st).
Proof.
  intros Hinv. pose proof Hinv as (Hlive & Hcur & Hrem).
  unfold pause_bookkeeping.
  destruct (_autoplay_timer st) as [h|] eqn:Ht.
  - destruct (Hcur h eq_refl) as (d & _ & _ & _ & _ & Hp & Hr).
    rewrite Hp.
    pose proof (cancel_current_all_cancelled st Hinv) as Hdead.
    rewrite Ht in Hdead.
    split; [|split]; simpl; try done.
    + intros h' tm Hh Hc. specialize (Hdead h' tm Hh). congruence.
    + intros r Hsome. split; [done|].
      destruct (_ && _); simplify_eq/=. apply py_max_ge.
  - destruct (_autoplay_paused st) eqn:Hp; [|done].
    destruct (_autoplay_remaining st) as [r|] eqn:Hr; [|done].
    pose proof (timer_inv_start e r st Hinv) as (Hlive' & Hcur' & _).
    split; [|split]; simpl; try done.
    intros h Hh. destruct (Hcur' h Hh) as (d & ? & ? & ? & ? & _ & _).
    exists d. eauto 10.
Qed.

Lemma timer_inv_pause_playback e st :
  timer_inv st → timer_inv (pause_playback e st).1.
Proof.
  intros Hinv. apply (timer_inv_pause_bookkeeping e) in Hinv.
  by destruct (pause_playback_state e st) as [-> | ->].
Qed.

Lemma timer_inv_fill_queue e platform st :
  timer_inv st → timer_inv (_fill_queue e platform st).
Proof.
  intros Hinv. destruct (decide (slice platform st = [])) as [Hs|Hs].
  - unfold _fill_queue. by rewrite Hs.
  - by rewrite fill_queue_nonempty.
Qed.

Lemma timer_inv_play_next e st :
  timer_inv st → timer_inv (_play_next_from_queue e st).
Proof.
  intros Hinv. unfold _play_next_from_queue.
  set (st1 := match _queue st with
              | [] => _fill_queue e None st
              | _ :: _ => st
              end).
  assert (timer_inv st1) as Hinv1.
  { subst st1. destruct (_queue st); auto using timer_inv_fill_queue. }
  cbv zeta. fold st1. destruct (_queue st1); [done|].
  by apply timer_inv_play_track.
Qed.

Lemma timer_inv_on_track_end e st :
  timer_inv st → timer_inv (_on_track_end e st).
Proof.
  intros Hinv. unfold _on_track_end. cbv zeta.
  apply timer_inv_play_next, timer_inv_stop_current.
  pose proof (timer_inv_cancel_current st Hinv) as Hdone.
  by destruct (_autoplay_timer st).
Qed.

Lemma timer_inv_refresh e focused refreshed f_raises st :
  timer_inv st →
  timer_inv (refresh_current_tab e focused refreshed f_raises st).1.
Proof.
  intros Hinv. unfold refresh_current_tab. cbv zeta.
  repeat case_match; simpl; try done; by apply timer_inv_arm_if_known.
Qed.

Lemma timer_inv_reconcile new_youtube_tracks new_spotify_tracks st :
  timer_inv st →
  timer_inv (reconcile new_youtube_tracks new_spotify_tracks st).
Proof. intros Hinv. unfold reconcile. cbv zeta. by repeat case_match. Qed.

Lemma timer_inv_step a st : timer_inv st → timer_inv (step a st).
Proof.
  intros Hinv. destruct a; simpl.
  - by apply timer_inv_play_next.
  - unfold play_random_from_platform. apply timer_inv_play_next.
    destruct (_queue st); auto using timer_inv_fill_queue.
  - by apply timer_inv_stop_current.
  - done.
  - done.
  - by apply timer_inv_pause_playback.
  - by apply timer_inv_refresh.
  - by apply timer_inv_on_track_end.
  - by apply timer_inv_reconcile.
  - done.
  - unfold _on_tree_double_click. repeat case_match; try done.
    by apply timer_inv_play_track.
Qed.

(** X5. One countdown at a time: whatever the main loop, the menu, the
    timer thread and the refresh thread do, in any order, a timer that
    has not been cancelled is the player's current timer; the current
    timer runs with the recorded duration, which is positive, and the
    player is then not paused; a remaining time is recorded only while
    paused and is at least 0.1 seconds. *)
Theorem one_countdown_at_a_time acts st :
  timer_inv st → timer_inv (run acts st).
Proof.
  revert st. induction acts as [|a acts IH]; intros st Hinv; [done|].
  simpl. by apply IH, timer_inv_step.
Qed.

Lemma one_countdown_at_a_time_witness :
  timer_inv (run [ActNext quiet; ActPause quiet; ActNext in_order; ActStop]
                 (with_catalog [video "A"] [song "B" 200] RandomPlayer_init)).
Proof.
  apply one_countdown_at_a_time.
  apply (timer_inv_ext RandomPlayer_init); try reflexivity.
  apply timer_inv_init.
Defined.

(** X6. After [stop_current] nothing counts down: from a state that
    obeys the timer discipline, every timer ever created is cancelled,
    no timer is current and the pause bookkeeping is cleared. *)
Theorem stop_current_cancels_every_timer st :
  timer_inv st →
  let st' := stop_current st in
  Forall (λ tm, cancelled tm = true) (timers st')
  ∧ _autoplay_timer st' = None
  ∧ _autoplay_start_time st' = None
  ∧ _autoplay_duration st' = None
  ∧ _autoplay_remaining st' = None
  ∧ _autoplay_paused st' = false.
Proof.
  intros Hinv st'.
  pose proof (timer_inv_stop_current st Hinv) as (Hlive & _ & _).
  assert (_autoplay_timer st' = None
          ∧ _autoplay_start_time st' = None
          ∧ _autoplay_duration st' = None
          ∧ _autoplay_remaining st' = None
          ∧ _autoplay_paused st' = false) as Hclear.
  { subst st'. unfold stop_current, close_current_tab. cbv zeta.
    destruct (_autoplay_timer st) eqn:Hcur; repeat case_match; done. }
  split; [|done]. apply Forall_lookup. intros h tm Hh.
  destruct (cancelled tm) eqn:Hc; [done|].
  specialize (Hlive h tm Hh Hc). destruct Hclear as [Hnone _].
  fold st' in Hlive. congruence.
Qed.

Lemma stop_current_cancels_every_timer_witness :
  Forall (λ tm, cancelled tm = true)
    (timers (stop_current
               (play_track quiet (song "B" 200)
                  (play_track quiet (song "A" 100) RandomPlayer_init)))).
Proof.
  refine (proj1 (stop_current_cancels_every_timer _ _)).
  apply timer_inv_play_track, timer_inv_play_track, timer_inv_init.
Defined.

(** ** Stopping and the end of a track *)

(** X7. [stop_current] is idempotent: a second stop changes nothing, not
    even the trace (no second tab is closed). *)
Theorem stop_current_idempotent st :
  stop_current (stop_current st) = stop_current st.
Proof.
  destruct st as [yt sp al pl cp yp spp ti pc tms tmr stt dur rem pau q tr].
  destruct tmr, ti as [[|c s]|], yp, spp; vm_compute; reflexivity.
Qed.

Lemma stop_after_timer_cleanup st :
  stop_current
    (clear_autoplay
       (set_autoplay_timer None
          (match _autoplay_timer st with
           | Some h => cancel_timer h st
           | None => st
           end)))
  = stop_current st.
Proof.
  destruct st as [yt sp al pl cp yp spp ti pc tms tmr stt dur rem pau q tr].
  destruct tmr; vm_compute; reflexivity.
Qed.

Lemma stop_current_library st :
  youtube_tracks (stop_current st) = youtube_tracks st
  ∧ spotify_tracks (stop_current st) = spotify_tracks st
  ∧ all_tracks (stop_current st) = all_tracks st
  ∧ _queue (stop_current st) = _queue st
  ∧ play_counts (stop_current st) = play_counts st
  ∧ played_tracks (stop_current st) = played_tracks st.
Proof.
  destruct st as [yt sp al pl cp yp spp ti pc tms tmr stt dur rem pau q tr].
  destruct tmr, ti as [[|c s]|], yp, spp; vm_compute; done.
Qed.

(** X8. When the autoplay timer fires, the callback does exactly a stop
    followed by an advance: the timer cleanup at its start is what
    [stop_current] does anyway. With a non-empty queue it therefore
    plays the head of the queue and nothing else. *)
Theorem on_track_end_is_stop_then_advance e st :
  _on_track_end e st = _play_next_from_queue e (stop_current st)
  ∧ match _queue st with
    | track :: rest =>
        _on_track_end e st
        = play_track e track (set_queue rest (stop_current st))
        ∧ played_tracks (_on_track_end e st) = played_tracks st ++ [track]
        ∧ _queue (_on_track_end e st) = rest
    | [] => True
    end.
Proof.
  assert (_on_track_end e st = _play_next_from_queue e (stop_current st))
    as Heq.
  { unfold _on_track_end. cbv zeta. by rewrite stop_after_timer_cleanup. }
  split; [done|].
  destruct (_queue st) as [|track rest] eqn:Hq; [done|].
  destruct (stop_current_library st) as (_ & _ & _ & Hq' & _ & Hp').
  rewrite Hq in Hq'.
  rewrite Heq, (play_next_from_nonempty e _ track rest Hq').
  destruct (play_track_library e track (set_queue rest (stop_current st)))
    as (_ & _ & _ & Hqueue & _ & Hplayed & _).
  split; [done|]. split; [|done]. rewrite Hplayed. simpl. by rewrite Hp'.
Qed.

(** ** Operations that leave catalog, queue, ledger and history alone *)

Ltac session_more :=
  repeat match goal with
  | |- session_step ?s ?s => apply session_step_refl
  | |- session_step _ (if ?b then _ else _) => destruct b
  | |- session_step _ (match ?o with Some _ => _ | None => _ end) =>
      destruct o
  | |- session_step _ (log _ _) =>
      eapply session_step_trans; [|by apply session_step_log]
  | |- session_step _ (arm_if_known _ _ _ _) =>
      eapply session_step_trans; [|apply session_step_arm_if_known]
  | |- session_step _ (_start_autoplay_timer _ _ _) =>
      eapply session_step_trans; [|apply session_step_start_autoplay_timer]
  | |- session_step _ (?f _ ?s) =>
      apply (session_step_trans _ s); [|by frame_id]
  end.

Lemma session_step_pause_playback e st :
  session_step st (pause_playback e st).1.
Proof.
  unfold pause_playback, pause_bookkeeping. cbv zeta.
  destruct (env_press_raises e); simpl;
    destruct (_autoplay_timer st), (_autoplay_paused st),
             (_autoplay_remaining st); session_more.
Qed.

Lemma session_step_stop_current st : session_step st (stop_current st).
Proof.
  unfold stop_current, clear_autoplay, close_current_tab. cbv zeta.
  destruct (_autoplay_timer st); session_more.
Qed.

Lemma session_step_refresh e focused refreshed f_raises st :
  session_step st (refresh_current_tab e focused refreshed f_raises st).1.
Proof.
  unfold refresh_current_tab. cbv zeta.
  repeat case_match; simpl; session_more.
Qed.

(** ** Catalog discipline *)

Lemma catalog_inv_ext st st' :
  youtube_tracks st' = youtube_tracks st →
  spotify_tracks st' = spotify_tracks st →
  all_tracks st' = all_tracks st →
  _queue st' = _queue st →
  catalog_inv st → catalog_inv st'.
Proof. unfold catalog_inv. intros -> -> -> ->. done. Qed.

Lemma catalog_inv_session st st' :
  session_step st st' → catalog_inv st → catalog_inv st'.
Proof.
  intros (Hy & Hs & Ha & Hq & _). by apply catalog_inv_ext.
Qed.

Lemma catalog_inv_set_queue q st :
  catalog_inv st →
  (∀ t, t ∈ q → url_in (all_tracks st) t) →
  catalog_inv (set_queue q st).
Proof.
  intros [Hall _] Hq. split; [done|]. simpl. by apply Forall_forall.
Qed.

Lemma catalog_inv_rearranged q st :
  catalog_inv st → q ⊆ _queue st → catalog_inv (set_queue q st).
Proof.
  intros Hinv Hsub. apply catalog_inv_set_queue; [done|].
  intros t Ht. destruct Hinv as [_ Hq].
  apply (proj1 (Forall_forall _ _) Hq). by apply Hsub.
Qed.

Lemma slice_in_catalog platform st t :
  catalog_inv st → t ∈ slice platform st → t ∈ all_tracks st.
Proof.
  intros [Hall _] Ht. rewrite Hall. apply elem_of_app.
  destruct platform as [p|]; simpl in Ht.
  - destruct (String.eqb p "youtube"); auto.
  - rewrite Hall in Ht. by apply elem_of_app in Ht.
Qed.

Lemma url_in_member (l : list Track) t : t ∈ l → url_in l t.
Proof. intros Ht. unfold url_in, urls. by apply list_elem_of_fmap_2. Qed.

Lemma catalog_inv_fill_queue e platform st :
  catalog_inv st → catalog_inv (_fill_queue e platform st).
Proof.
  intros Hinv. destruct (decide (slice platform st = [])) as [Hs|Hs].
  - unfold _fill_queue. by rewrite Hs.
  - rewrite fill_queue_nonempty by done.
    apply catalog_inv_set_queue; [done|]. intros t Ht.
    apply elem_of_app in Ht as [Ht|Ht].
    + destruct Hinv as [_ Hq]. by apply (proj1 (Forall_forall _ _) Hq).
    + rewrite shuffle_perm in Ht. apply list_elem_of_filter in Ht as [_ Ht].
      by apply url_in_member, (slice_in_catalog platform).
Qed.

Lemma catalog_inv_play_track e track st :
  catalog_inv st → catalog_inv (play_track e track st).
Proof.
  destruct (play_track_library e track st) as (Hy & Hs & Ha & Hq & _).
  by apply catalog_inv_ext.
Qed.

Lemma catalog_inv_play_next e st :
  catalog_inv st → catalog_inv (_play_next_from_queue e st).
Proof.
  intros Hinv. unfold _play_next_from_queue.
  set (st1 := match _queue st with
              | [] => _fill_queue e None st
              | _ :: _ => st
              end).
  assert (catalog_inv st1) as Hinv1.
  { subst st1. destruct (_queue st); auto using catalog_inv_fill_queue. }
  cbv zeta. fold st1. destruct (_queue st1) as [|track rest] eqn:Hq.
  - by apply (catalog_inv_ext st1).
  - apply catalog_inv_play_track, catalog_inv_rearranged; [done|].
    rewrite Hq. set_solver.
Qed.

Lemma catalog_inv_reconcile new_youtube_tracks new_spotify_tracks st :
  catalog_inv (reconcile new_youtube_tracks new_spotify_tracks st).
Proof.
  destruct (reconcile_queue new_youtube_tracks new_spotify_tracks st)
    as (Hy & Hs & Ha & Hq).
  split; [by rewrite Hy, Hs, Ha|]. rewrite Ha, Hq.
  apply Forall_app. split; apply Forall_forall; intros t Ht.
  - by apply list_elem_of_filter in Ht as [Ht _].
  - apply list_elem_of_filter in Ht as [_ Ht].
    apply list_elem_of_filter in Ht as [_ Ht]. by apply url_in_member.
Qed.

Lemma catalog_inv_step a st : catalog_inv st → catalog_inv (step a st).
Proof.
  intros Hinv. destruct a; simpl.
  - by apply catalog_inv_play_next.
  - unfold play_random_from_platform. apply catalog_inv_play_next.
    destruct (_queue st); auto using catalog_inv_fill_queue.
  - eapply catalog_inv_session; [apply session_step_stop_current | done].
  - apply catalog_inv_rearranged; [done|].
    intros t. by rewrite move_to_front_perm.
  - apply catalog_inv_rearranged; [done|].
    intros t. unfold shuffle_queue. by rewrite shuffle_perm.
  - eapply catalog_inv_session; [apply session_step_pause_playback | done].
  - eapply catalog_inv_session; [apply session_step_refresh | done].
  - unfold _on_track_end. cbv zeta. rewrite stop_after_timer_cleanup.
    apply catalog_inv_play_next.
    eapply catalog_inv_session; [apply session_step_stop_current | done].
  - apply catalog_inv_reconcile.
  - apply catalog_inv_rearranged; [done|].
    intros t. by rewrite reorder_perm.
  - unfold _on_tree_double_click. repeat case_match; try done.
    apply catalog_inv_play_track, catalog_inv_rearranged; [done|].
    apply list_subseteq_delete.
Qed.

(** X9. Catalog discipline: whatever the entry points do, in any order,
    the union catalog stays the YouTube list followed by the Spotify
    list, and the queue never holds a track whose URL is missing from
    the current catalog. *)
Theorem queue_stays_within_catalog acts st :
  catalog_inv st → catalog_inv (run acts st).
Proof.
  revert st. induction acts as [|a acts IH]; intros st Hinv; [done|].
  simpl. by apply IH, catalog_inv_step.
Qed.

Lemma queue_stays_within_catalog_witness :
  catalog_inv
    (run [ActSync (Fetched [video "A"; video "B"]) (Fetched [song "C" 200])
            "https://www.youtube.com/playlist?list=PL1"
            "https://open.spotify.com/playlist/P1" "id" "secret" false;
          ActNext quiet;
          ActSync (Fetched [video "B"]) FetchRaised
            "https://www.youtube.com/playlist?list=PL1"
            "https://open.spotify.com/playlist/P1" "id" "secret" true;
          ActFront 1]
       RandomPlayer_init).
Proof.
  apply queue_stays_within_catalog. split; [reflexivity | constructor].
Defined.

(** ** Ledger and history *)

Lemma plays_of_app k (l1 l2 : list Track) :
  plays_of k (l1 ++ l2) = (plays_of k l1 + plays_of k l2)%nat.
Proof. unfold plays_of. by rewrite filter_app, length_app. Qed.

Lemma plays_of_singleton k track :
  plays_of k [track] = if decide (_track_key track = k) then 1%nat else 0%nat.
Proof.
  unfold plays_of. rewrite filter_cons, filter_nil. by case_decide.
Qed.

Lemma ledger_inv_ext base hist st st' :
  play_counts st' = play_counts st →
  played_tracks st' = played_tracks st →
  ledger_inv base hist st → ledger_inv base hist st'.
Proof. unfold ledger_inv. intros -> ->. done. Qed.

Lemma ledger_inv_session base hist st st' :
  session_step st st' → ledger_inv base hist st → ledger_inv base hist st'.
Proof.
  intros (_ & _ & _ & _ & Hc & Hp & _). by apply ledger_inv_ext.
Qed.

Lemma ledger_inv_play_track base hist e track st :
  ledger_inv base hist st → ledger_inv base hist (play_track e track st).
Proof.
  intros (played & Hplayed & Hcount).
  destruct (play_track_library e track st)
    as (_ & _ & _ & _ & Hc & Hp & _).
  exists (played ++ [track]). split.
  - by rewrite Hp, Hplayed, app_assoc.
  - intros k. rewrite Hc, plays_of_app, plays_of_singleton.
    unfold count_of. destruct (decide (_track_key track = k)) as [->|Hne].
    + rewrite lookup_insert_eq. simpl. rewrite Hcount. lia.
    + rewrite lookup_insert_ne by done. rewrite Hcount. lia.
Qed.

Lemma ledger_inv_fill_queue base hist e platform st :
  ledger_inv base hist st → ledger_inv base hist (_fill_queue e platform st).
Proof.
  intros Hinv. destruct (decide (slice platform st = [])) as [Hs|Hs].
  - unfold _fill_queue. by rewrite Hs.
  - by rewrite fill_queue_nonempty.
Qed.

Lemma ledger_inv_play_next base hist e st :
  ledger_inv base hist st →
  ledger_inv base hist (_play_next_from_queue e st).
Proof.
  intros Hinv. unfold _play_next_from_queue.
  set (st1 := match _queue st with
              | [] => _fill_queue e None st
              | _ :: _ => st
              end).
  assert (ledger_inv base hist st1) as Hinv1.
  { subst st1. destruct (_queue st); auto using ledger_inv_fill_queue. }
  cbv zeta. fold st1. destruct (_queue st1); [done|].
  by apply ledger_inv_play_track.
Qed.

Lemma ledger_inv_reconcile base hist new_youtube_tracks new_spotify_tracks st :
  ledger_inv base hist st →
  ledger_inv base hist (reconcile new_youtube_tracks new_spotify_tracks st).
Proof. intros Hinv. unfold reconcile. cbv zeta. by repeat case_match. Qed.

Lemma ledger_inv_step base hist a st :
  ledger_inv base hist st → ledger_inv base hist (step a st).
Proof.
  intros Hinv. destruct a; simpl.
  - by apply ledger_inv_play_next.
  - unfold play_random_from_platform. apply ledger_inv_play_next.
    destruct (_queue st); auto using ledger_inv_fill_queue.
  - eapply ledger_inv_session; [apply session_step_stop_current | done].
  - done.
  - done.
  - eapply ledger_inv_session; [apply session_step_pause_playback | done].
  - eapply ledger_inv_session; [apply session_step_refresh | done].
  - unfold _on_track_end. cbv zeta. rewrite stop_after_timer_cleanup.
    apply ledger_inv_play_next.
    eapply ledger_inv_session; [apply session_step_stop_current | done].
  - by apply ledger_inv_reconcile.
  - done.
  - unfold _on_tree_double_click. repeat case_match; try done.
    by apply ledger_inv_play_track.
Qed.

Lemma ledger_inv_run base hist acts st :
  ledger_inv base hist st → ledger_inv base hist (run acts st).
Proof.
  revert st. induction acts as [|a acts IH]; intros st Hinv; [done|].
  simpl. by apply IH, ledger_inv_step.
Qed.

(** X10. The ledger counts plays and nothing else: over any run of the
    entry points the history only grows, and every ledger entry (0 when
    absent) grows by exactly the number of times its key was played in
    the run; in particular no count ever decreases and a key that was
    not played keeps its count. *)
Theorem ledger_counts_exactly_the_plays acts st :
  ∃ played,
    played_tracks (run acts st) = played_tracks st ++ played
    ∧ ∀ k, default 0%Z (play_counts (run acts st) !! k)
           = (default 0%Z (play_counts st !! k)
              + Z.of_nat (plays_of k played))%Z.
Proof.
  apply (ledger_inv_run (play_counts st) (played_tracks st) acts st).
  exists []. split; [by rewrite app_nil_r|]. intros k.
  unfold plays_of. simpl. lia.
Qed.

(** ** A round of the fairness queue *)

Lemma advance_all_cons e es st :
  advance_all (e :: es) st = advance_all es (_play_next_from_queue e st).
Proof. done. Qed.

(** Advancing once per queued track plays the queue in order and empties
    it, without a refill. *)
Lemma advance_all_drains es st :
  length es = length (_queue st) →
  played_tracks (advance_all es st) = played_tracks st ++ _queue st
  ∧ _queue (advance_all es st) = [].
Proof.
  revert st. induction es as [|e es IH]; intros st Hlen.
  - simpl. destruct (_queue st); [|done]. by rewrite app_nil_r.
  - destruct (_queue st) as [|track rest] eqn:Hq; [done|].
    rewrite advance_all_cons, (play_next_from_nonempty e st track rest Hq).
    destruct (play_track_library e track (set_queue rest st))
      as (_ & _ & _ & Hqueue & _ & Hplayed & _).
    remember (play_track e track (set_queue rest st)) as st1 eqn:Hst1.
    clear Hst1. simpl in Hqueue, Hplayed, Hlen.
    destruct (IH st1) as [Hp Hempty]; [rewrite Hqueue; lia|].
    split; [|done]. rewrite Hp, Hqueue, Hplayed.
    by rewrite <- app_assoc.
Qed.

Lemma ledger_inv_advance_all base hist es st :
  ledger_inv base hist st → ledger_inv base hist (advance_all es st).
Proof.
  revert st. induction es as [|e es IH]; intros st Hinv; [done|].
  rewrite advance_all_cons. by apply IH, ledger_inv_play_next.
Qed.

Lemma plays_of_member (l : list Track) t :
  t ∈ l → (1 ≤ plays_of (_track_key t) l)%nat.
Proof.
  intros Ht. unfold plays_of.
  assert (t ∈ filter (λ u, _track_key u = _track_key t) l) as Hin
    by by apply list_elem_of_filter.
  destruct (filter _ l); [by apply not_elem_of_nil in Hin | simpl; lia].
Qed.

(** X11. One round: when the queue is empty, advancing once per
    minimum-count catalog track plays exactly those tracks, each once,
    in the order the shuffle produced, and leaves the queue empty again;
    every count grows by the number of times its key was played, so
    afterwards every catalog track is above the old minimum. *)
Theorem a_round_plays_each_candidate_once e es st :
  _queue st = [] →
  let m := min_of (map (count_of (play_counts st)) (all_tracks st)) in
  let round :=
    shuffle (env_draws e)
      (filter (λ t, count_of (play_counts st) t = m) (all_tracks st)) in
  length (e :: es) = length round →
  let st' := advance_all (e :: es) st in
  played_tracks st' = played_tracks st ++ round
  ∧ _queue st' = []
  ∧ (∀ t, count_of (play_counts st') t
          = (count_of (play_counts st) t
             + Z.of_nat (plays_of (_track_key t) round))%Z)
  ∧ Forall (λ t, (m + 1 ≤ count_of (play_counts st') t)%Z) (all_tracks st).
Proof.
  intros Hq m round Hlen st'.
  assert (all_tracks st ≠ []) as Hne.
  { intros Hnil. subst round. rewrite Hnil in Hlen. done. }
  assert (played_tracks st' = played_tracks st ++ round ∧ _queue st' = [])
    as [Hplayed Hempty].
  { subst st'. rewrite advance_all_cons, play_next_after_refill by done.
    rewrite (fill_queue_nonempty e None st Hne). simpl.
    rewrite Hq. simpl. fold m. fold round.
    destruct round as [|track rest] eqn:Hround; [done|].
    destruct (play_track_library e track
                (set_queue rest (set_queue (track :: rest) st)))
      as (_ & _ & _ & Hqueue & _ & Hp & _).
    remember (play_track e track
                (set_queue rest (set_queue (track :: rest) st)))
      as st1 eqn:Hst1.
    clear Hst1. simpl in Hqueue, Hp.
    destruct (advance_all_drains es st1) as [Hp' Hq'];
      [rewrite Hqueue; simpl in Hlen; lia|].
    split; [|done]. rewrite Hp', Hqueue, Hp. by rewrite <- app_assoc. }
  assert (∀ t, count_of (play_counts st') t
               = (count_of (play_counts st) t
                  + Z.of_nat (plays_of (_track_key t) round))%Z) as Hcount.
  { destruct (ledger_inv_advance_all (play_counts st) (played_tracks st)
                (e :: es) st) as (played & Hp & Hc).
    { exists []. split; [by rewrite app_nil_r|]. intros k.
      unfold plays_of. simpl. lia. }
    fold st' in Hp, Hc. rewrite Hplayed in Hp.
    apply app_inv_head in Hp as <-. intros t. apply Hc. }
  split; [done|]. split; [done|]. split; [done|].
  apply Forall_forall. intros t Ht. rewrite Hcount.
  pose proof (min_of_le (map (count_of (play_counts st)) (all_tracks st)))
    as Hmin.
  rewrite Forall_fmap in Hmin.
  pose proof (proj1 (Forall_forall _ _) Hmin t Ht) as Hle. simpl in Hle.
  fold m in Hle.
  destruct (decide (count_of (play_counts st) t = m)) as [Heq|Hne'].
  - assert (t ∈ round) as Hin.
    { subst round. rewrite shuffle_perm. by apply list_elem_of_filter. }
    pose proof (plays_of_member round t Hin). lia.
  - lia.
Qed.

Lemma a_round_plays_each_candidate_once_witness :
  let st := with_catalog [video "A"; video "B"] [song "C" 200]
                         RandomPlayer_init in
  played_tracks (advance_all [in_order; quiet; quiet] st)
  = [video "A"; video "B"; song "C" 200].
Proof.
  intros st.
  exact (proj1 (a_round_plays_each_candidate_once in_order [quiet; quiet] st
                  eq_refl eq_refl)).
Defined.

(** ** More on synchronization *)

Lemma reconcile_frame new_youtube_tracks new_spotify_tracks st :
  let st' := reconcile new_youtube_tracks new_spotify_tracks st in
  played_tracks st' = played_tracks st
  ∧ play_counts st' = play_counts st
  ∧ current_platform st' = current_platform st
  ∧ _youtube_playing st' = _youtube_playing st
  ∧ _spotify_playing st' = _spotify_playing st
  ∧ _current_track_title st' = _current_track_title st
  ∧ timers st' = timers st
  ∧ _autoplay_timer st' = _autoplay_timer st
  ∧ _autoplay_start_time st' = _autoplay_start_time st
  ∧ _autoplay_duration st' = _autoplay_duration st
  ∧ _autoplay_remaining st' = _autoplay_remaining st
  ∧ _autoplay_paused st' = _autoplay_paused st
  ∧ trace st' = trace st.
Proof. intros st'. subst st'. unfold reconcile. cbv zeta. by repeat case_match. Qed.

(** X12. A synchronization cycle changes the catalog and the queue and
    nothing else: the current track, the playing flags, the timer and
    its bookkeeping, the ledger, the history and the trace are the same
    after it, whatever the providers returned. *)
Theorem sync_leaves_playback_alone yt sp youtube_url spotify_url client_id
    client_secret silent st :
  let st' := load_playlists yt sp youtube_url spotify_url client_id
                            client_secret silent st in
  played_tracks st' = played_tracks st
  ∧ play_counts st' = play_counts st
  ∧ current_platform st' = current_platform st
  ∧ _youtube_playing st' = _youtube_playing st
  ∧ _spotify_playing st' = _spotify_playing st
  ∧ _current_track_title st' = _current_track_title st
  ∧ timers st' = timers st
  ∧ _autoplay_timer st' = _autoplay_timer st
  ∧ _autoplay_start_time st' = _autoplay_start_time st
  ∧ _autoplay_duration st' = _autoplay_duration st
  ∧ _autoplay_remaining st' = _autoplay_remaining st
  ∧ _autoplay_paused st' = _autoplay_paused st
  ∧ trace st' = trace st.
Proof. intros st'. apply reconcile_frame. Qed.

(** The two lists a cycle installs. *)
Lemma load_playlists_lists yt sp youtube_url spotify_url client_id
    client_secret silent st :
  let m := min_of (map (count_of (play_counts st)) (all_tracks st)) in
  let at_min := filter (λ t, count_of (play_counts st) t = m) in
  let st' := load_playlists yt sp youtube_url spotify_url client_id
                            client_secret silent st in
  youtube_tracks st'
  = (if truthy_str youtube_url
     then at_min (if silent then _fetch_youtube_silent yt st
                  else fetch_loud yt)
     else [])
  ∧ spotify_tracks st'
    = (if truthy_str spotify_url && truthy_str client_id
          && truthy_str client_secret
       then at_min (if silent then _fetch_spotify_silent sp st
                    else fetch_loud sp)
       else [])
  ∧ all_tracks st' = youtube_tracks st' ++ spotify_tracks st'.
Proof.
  intros m at_min st'. subst st'. unfold load_playlists. cbv zeta.
  match goal with
  | |- context [reconcile ?y ?s st] =>
      destruct (reconcile_queue y s st) as (Hy & Hs & Ha & _)
  end.
  by rewrite Hy, Hs, Ha.
Qed.

Lemma installed_at_min yt sp youtube_url spotify_url client_id client_secret
    silent st :
  let m := min_of (map (count_of (play_counts st)) (all_tracks st)) in
  let st' := load_playlists yt sp youtube_url spotify_url client_id
                            client_secret silent st in
  play_counts st' = play_counts st
  ∧ Forall (λ t, count_of (play_counts st) t = m) (all_tracks st').
Proof.
  intros m st'.
  destruct (load_playlists_lists yt sp youtube_url spotify_url client_id
              client_secret silent st) as (Hy & Hs & Ha).
  fold st' in Hy, Hs, Ha. fold m in Hy, Hs.
  split; [apply reconcile_frame|].
  rewrite Ha, Hy, Hs.
  apply Forall_app. split; apply Forall_forall; intros t Ht;
    repeat case_match; try (by apply not_elem_of_nil in Ht);
    by apply list_elem_of_filter in Ht as [Ht _].
Qed.

(** X13. The fairness pre-filter: whatever the providers return, every
    track of the catalog a cycle installs has a play count equal to the
    minimum count over the catalog before the cycle; tracks played more
    often are left out of the catalog. *)
Theorem sync_installs_only_min_count_tracks yt sp youtube_url spotify_url
    client_id client_secret silent st :
  let m := min_of (map (count_of (play_counts st)) (all_tracks st)) in
  let st' := load_playlists yt sp youtube_url spotify_url client_id
                            client_secret silent st in
  Forall (λ t, count_of (play_counts st') t = m) (all_tracks st').
Proof.
  intros m st'.
  destruct (installed_at_min yt sp youtube_url spotify_url client_id
              client_secret silent st) as [Hc Hall].
  fold st' in Hc, Hall. by rewrite Hc.
Qed.

Lemma filter_none {A} (P : A → Prop) `{∀ x, Decision (P x)} (l : list A) :
  Forall P l → filter (λ x, ¬ P x) l = [].
Proof.
  induction 1 as [|x l Hx Hl IH]; [done|].
  rewrite filter_cons. by destruct (decide (¬ P x)).
Qed.

Lemma filter_nothing {A} (P : A → Prop) `{∀ x, Decision (P x)} (l : list A) :
  Forall (λ x, ¬ P x) l → filter P l = [].
Proof.
  induction 1 as [|x l Hx Hl IH]; [done|].
  rewrite filter_cons. by destruct (decide (P x)).
Qed.

Lemma filter_filter_same {A} (P : A → Prop) `{∀ x, Decision (P x)}
    (l : list A) :
  filter P (filter P l) = filter P l.
Proof.
  apply filter_all, Forall_forall. intros x Hx.
  by apply list_elem_of_filter in Hx as [Hx _].
Qed.

(** Reconciling a player with the lists it already has does nothing. *)
Lemma reconcile_fixed st :
  catalog_inv st →
  reconcile (youtube_tracks st) (spotify_tracks st) st = st.
Proof.
  intros [Hall Hq].
  assert (filter (λ t, ¬ url_in (all_tracks st) t) (_queue st) = []) as Hrem
    by by apply filter_none.
  assert (filter (λ t, ¬ url_in (all_tracks st) t) (all_tracks st) = [])
    as Hnew.
  { apply filter_none, Forall_forall. intros t. apply url_in_member. }
  destruct st as [yt sp al pl cp yp spp ti pc tms tmr stt dur rem pau q tr].
  simpl in *. subst al. unfold reconcile. cbv zeta. simpl.
  rewrite Hrem. simpl. by rewrite Hnew.
Qed.

(** X14. A cycle is idempotent while the catalog is not empty: if the
    cycle installs a non-empty catalog, running it once more with the
    same provider answers and no play in between changes nothing. *)
Theorem sync_twice_changes_nothing yt sp youtube_url spotify_url
    client_id client_secret silent st :
  let st' := load_playlists yt sp youtube_url spotify_url client_id
                            client_secret silent st in
  all_tracks st' ≠ [] →
  load_playlists yt sp youtube_url spotify_url client_id client_secret
                 silent st' = st'.
Proof.
  intros st' Hne.
  set (m := min_of (map (count_of (play_counts st)) (all_tracks st))).
  destruct (load_playlists_lists yt sp youtube_url spotify_url client_id
              client_secret silent st) as (Hy & Hs & Ha).
  destruct (installed_at_min yt sp youtube_url spotify_url client_id
              client_secret silent st) as [Hc Hmin].
  fold st' in Hy, Hs, Ha, Hc, Hmin. fold m in Hy, Hs, Hmin.
  assert (catalog_inv st') as Hcat by apply catalog_inv_reconcile.
  assert (min_of (map (count_of (play_counts st)) (all_tracks st')) = m)
    as Hm by by apply min_of_constant.
  unfold load_playlists. cbv zeta. rewrite Hc, Hm.
  assert ((if truthy_str youtube_url
           then filter (λ t, count_of (play_counts st) t = m)
                  (if silent then _fetch_youtube_silent yt st'
                   else fetch_loud yt)
           else []) = youtube_tracks st') as ->.
  { rewrite Hy. destruct (truthy_str youtube_url); [|done].
    destruct silent; [|done]. destruct yt; simpl; [done|].
    rewrite Hy. by rewrite filter_filter_same. }
  assert ((if truthy_str spotify_url && truthy_str client_id
              && truthy_str client_secret
           then filter (λ t, count_of (play_counts st) t = m)
                  (if silent then _fetch_spotify_silent sp st'
                   else fetch_loud sp)
           else []) = spotify_tracks st') as ->.
  { rewrite Hs. destruct (_ && _); [|done].
    destruct silent; [|done]. destruct sp; simpl; [done|].
    rewrite Hs. by rewrite filter_filter_same. }
  by apply reconcile_fixed.
Qed.

Lemma sync_twice_changes_nothing_witness :
  let st := with_catalog [video "A"; video "B"] [] RandomPlayer_init in
  let st' := load_playlists (Fetched [video "B"; video "C"]) FetchRaised
               "https://www.youtube.com/playlist?list=PL1" "" "" "" true st in
  load_playlists (Fetched [video "B"; video "C"]) FetchRaised
    "https://www.youtube.com/playlist?list=PL1" "" "" "" true st' = st'.
Proof.
  intros st st'.
  apply (sync_twice_changes_nothing (Fetched [video "B"; video "C"])
           FetchRaised "https://www.youtube.com/playlist?list=PL1"
           "" "" "" true st).
  by vm_compute.
Defined.

Lemma load_playlists_queue yt sp youtube_url spotify_url client_id
    client_secret silent st :
  let st' := load_playlists yt sp youtube_url spotify_url client_id
                            client_secret silent st in
  _queue st'
  = filter (url_in (all_tracks st')) (_queue st)
    ++ filter (λ t, ¬ url_in (all_tracks st) t ∧ ¬ url_in (_queue st) t)
         (all_tracks st').
Proof.
  intros st'. subst st'. unfold load_playlists. cbv zeta.
  match goal with
  | |- context [reconcile ?y ?s st] =>
      destruct (reconcile_queue y s st) as (_ & _ & Ha & Hq);
      generalize dependent (reconcile y s st);
      generalize dependent y; generalize dependent s
  end.
  intros s y st' Ha Hq. rewrite reconcile_added in Hq. by rewrite Ha, Hq.
Qed.

(** X15. Provider failure in a loud (non-silent) cycle publishes the
    empty list for that source, and a cycle that installs an empty
    catalog drops the whole queue: after a loud cycle in which both
    fetches fail, catalog and queue are empty. *)
Theorem sync_empty_catalog_drops_queue yt sp youtube_url spotify_url
    client_id client_secret silent st :
  let st' := load_playlists yt sp youtube_url spotify_url client_id
                            client_secret silent st in
  (all_tracks st' = [] → _queue st' = [])
  ∧ (silent = false → yt = FetchRaised → youtube_tracks st' = [])
  ∧ (silent = false → sp = FetchRaised → spotify_tracks st' = [])
  ∧ (silent = false → yt = FetchRaised → sp = FetchRaised →
     all_tracks st' = [] ∧ _queue st' = []).
Proof.
  intros st'.
  destruct (load_playlists_lists yt sp youtube_url spotify_url client_id
              client_secret silent st) as (Hy & Hs & Ha).
  pose proof (load_playlists_queue yt sp youtube_url spotify_url client_id
                client_secret silent st) as Hq.
  fold st' in Hy, Hs, Ha, Hq.
  assert (all_tracks st' = [] → _queue st' = []) as Hdrop.
  { intros Hnil. rewrite Hq, Hnil. rewrite filter_nil, app_nil_r.
    apply filter_nothing, Forall_forall.
    intros t _ Hin. unfold url_in, urls in Hin. simpl in Hin.
    by apply not_elem_of_nil in Hin. }
  assert (silent = false → yt = FetchRaised → youtube_tracks st' = [])
    as Hyt.
  { intros -> ->. rewrite Hy. by destruct (truthy_str youtube_url). }
  assert (silent = false → sp = FetchRaised → spotify_tracks st' = [])
    as Hsp.
  { intros -> ->. rewrite Hs. by destruct (_ && _). }
  split; [done|]. split; [done|]. split; [done|].
  intros Hsilent Hyf Hsf.
  assert (all_tracks st' = []) as Hnil
    by by rewrite Ha, (Hyt Hsilent Hyf), (Hsp Hsilent Hsf).
  auto.
Qed.

Lemma sync_empty_catalog_drops_queue_witness :
  let st := set_queue [video "A"; video "B"]
              (with_catalog [video "A"; video "B"] [] RandomPlayer_init) in
  _queue (load_playlists FetchRaised FetchRaised
            "https://www.youtube.com/playlist?list=PL1" "" "" "" false st)
  = [].
Proof.
  intros st.
  exact (proj2 (proj2 (proj2 (proj2
           (sync_empty_catalog_drops_queue FetchRaised FetchRaised
              "https://www.youtube.com/playlist?list=PL1" "" "" "" false st)))
         eq_refl eq_refl eq_refl)).
Defined.

(** ** Playing from one platform *)

(** X16. [play_random_from_platform] honours the platform only when the
    queue is empty and that platform has tracks: it then plays a track
    of that platform whose count is the minimum over that platform's
    list and queues the other minimum-count tracks of the platform. With
    a non-empty queue, or when the platform has no tracks, it behaves
    like a plain advance (which refills from the whole catalog). *)
Theorem play_random_from_platform_scope e platform st :
  match _queue st, slice (Some platform) st with
  | [], _ :: _ =>
      let tracks := slice (Some platform) st in
      let m := min_of (map (count_of (play_counts st)) tracks) in
      ∃ track rest,
        track :: rest
          ≡ₚ filter (λ t, count_of (play_counts st) t = m) tracks
        ∧ track ∈ tracks
        ∧ count_of (play_counts st) track = m
        ∧ play_random_from_platform e platform st
          = play_track e track (set_queue rest st)
  | _, _ =>
      play_random_from_platform e platform st = _play_next_from_queue e st
  end.
Proof.
  unfold play_random_from_platform.
  destruct (_queue st) as [|q0 q] eqn:Hq; [|done].
  destruct (slice (Some platform) st) as [|t0 tracks] eqn:Hs.
  { unfold _fill_queue. by rewrite Hs. }
  set (m := min_of (map (count_of (play_counts st)) (t0 :: tracks))).
  assert (slice (Some platform) st ≠ []) as Hne by by rewrite Hs.
  pose proof (fill_queue_nonempty e (Some platform) st Hne) as Hfill.
  cbv zeta in Hfill. rewrite Hs in Hfill. fold m in Hfill.
  rewrite Hq in Hfill. simpl in Hfill.
  pose proof (shuffle_perm (env_draws e)
                (filter (λ t, count_of (play_counts st) t = m)
                        (t0 :: tracks))) as Hperm.
  destruct (shuffle (env_draws e)
              (filter (λ t, count_of (play_counts st) t = m) (t0 :: tracks)))
    as [|track rest] eqn:Hshuffled.
  { exfalso. symmetry in Hperm. apply Permutation_nil_r in Hperm.
    revert Hperm. by apply (candidates_nonempty _ (t0 :: tracks)). }
  exists track, rest.
  assert (track ∈ filter (λ t, count_of (play_counts st) t = m)
                         (t0 :: tracks)) as Hin.
  { rewrite <- Hperm. apply list_elem_of_here. }
  apply list_elem_of_filter in Hin as [Hcount Hin].
  split; [done|]. split; [done|]. split; [done|].
  rewrite Hfill.
  by rewrite (play_next_from_nonempty e (set_queue (track :: rest) st)
                track rest eq_refl).
Qed.

(** ** Refreshing the current tab *)

Lemma refresh_timer_dur_pos last_played d :
  (0 < d)%Q → (0 < refresh_timer_dur last_played d)%Q.
Proof.
  intros Hd. unfold refresh_timer_dur.
  destruct (String.eqb (platform last_played) "spotify"); [|done].
  destruct (spotify_timer_dur_bounds 4 d Hd) as (Hfloor & _).
  apply Qlt_le_trans with (1#2)%Q; [reflexivity | exact Hfloor].
Qed.

(** X17. [refresh_current_tab] gives up, returning [False] and leaving
    the player untouched, when there is no current title, the tab is not
    found or no reload key goes through. When it does reload and the
    last played track has a known duration [d > 0], it cancels the
    current timer and arms a fresh one for the whole duration again
    ([d], or the Spotify adjustment of [d] with offset 4), whatever time
    had elapsed and even if playback was paused. *)
Theorem refresh_rearms_from_the_start e focused refreshed f_raises st :
  (truthy_opt_str (_current_track_title st) && focused && refreshed = false →
   refresh_current_tab e focused refreshed f_raises st = (st, false))
  ∧ (∀ last_played d,
       truthy_opt_str (_current_track_title st) && focused && refreshed
       = true →
       last (played_tracks st) = Some last_played →
       duration last_played = Some d →
       (0 < d)%Q →
       let st' := (refresh_current_tab e focused refreshed f_raises st).1 in
       let a := refresh_timer_dur last_played d in
       st' = _start_autoplay_timer e a st
       ∧ _autoplay_timer st' = Some (length (timers st))
       ∧ timers st' !! length (timers st) = Some (mkTimer a false)
       ∧ _autoplay_duration st' = Some a
       ∧ _autoplay_start_time st' = Some (env_now e)
       ∧ _autoplay_remaining st' = None
       ∧ _autoplay_paused st' = false
       ∧ (platform last_played ≠ "spotify" → a = d)).
Proof.
  split.
  - intros Hfail. unfold refresh_current_tab.
    destruct (truthy_opt_str (_current_track_title st)); [|done].
    destruct focused; [|done]. destruct refreshed; [|done]. done.
  - intros last_played d Hok Hlast Hdur Hd st' a.
    apply andb_true_iff in Hok as [Hok ->].
    apply andb_true_iff in Hok as [Htitle ->].
    pose proof (refresh_timer_dur_pos last_played d Hd) as Ha.
    fold a in Ha.
    assert (st' = _start_autoplay_timer e a st) as ->.
    { subst st'. unfold refresh_current_tab. rewrite Htitle, Hlast.
      cbv zeta. simpl. unfold arm_if_known.
      rewrite Hdur, truthy_float_pos by done. fold a.
      by repeat case_match. }
    split; [done|].
    rewrite start_autoplay_timer_pos by done. simpl.
    repeat split.
    + destruct (_autoplay_timer st).
      * rewrite lookup_app_r by by rewrite length_alter.
        by rewrite length_alter, Nat.sub_diag.
      * by rewrite lookup_app_r, Nat.sub_diag.
    + intros Hplat. subst a. unfold refresh_timer_dur.
      destruct (String.eqb_spec (platform last_played) "spotify"); done.
Qed.

Lemma refresh_rearms_from_the_start_witness :
  let st := play_track quiet (video "A") RandomPlayer_init in
  refresh_current_tab quiet false true false st = (st, false).
Proof.
  intros st.
  exact (proj1 (refresh_rearms_from_the_start quiet false true false st)
               eq_refl).
Defined.

(** ** Playing without a new timer *)




(** X19. A YouTube track of known duration [d > 0] whose page opened (or
    whose tab was reused) is armed for exactly [d], from the current
    time, with no shortening; the track becomes the current title and
    the platform is YouTube. *)
Theorem play_track_youtube_arms_full_duration e track d st :
  platform track = "youtube" →
  duration track = Some d →
  (0 < d)%Q →
  truthy_opt_str (_current_track_title st) && env_reused e
  || negb (env_open_raises e) = true →
  let st' := play_track e track st in
  _autoplay_duration st' = Some d
  ∧ _autoplay_start_time st' = Some (env_now e)
  ∧ _autoplay_timer st' = Some (length (timers st))
  ∧ _autoplay_paused st' = false
  ∧ _current_track_title st' = Some (title track)
  ∧ current_platform st' = Some "youtube"
  ∧ _youtube_playing st' = true.
Proof.
  intros Hplat Hdur Hd Hpath st'. subst st'.
  unfold play_track. rewrite Hplat.
  change (String.eqb "youtube" "youtube") with true. cbv iota zeta.
  unfold play_youtube, arm_if_known. cbv zeta.
  rewrite Hdur. simpl. rewrite truthy_float_pos by done.
  destruct (truthy_opt_str (_current_track_title st) && env_reused e);
    [|simpl in Hpath; apply negb_true_iff in Hpath; rewrite Hpath];
    rewrite start_autoplay_timer_pos by done; simpl;
    repeat split; by rewrite ?length_alter.
Qed.

Lemma play_track_youtube_arms_full_duration_witness :
  let track := mkTrack "A" "Uploader" "youtube"
                       "https://www.youtube.com/watch?v=A"
                       None (Some 215%Q) None None None in
  _autoplay_duration (play_track quiet track RandomPlayer_init)
  = Some 215%Q.
Proof.
  intros track.
  exact (proj1 (play_track_youtube_arms_full_duration quiet track 215
                  RandomPlayer_init eq_refl eq_refl eq_refl eq_refl)).
Defined.
